(** * zenoh-pico, unix system layer: [src/system/unix/network.c]

    A shallow embedding of the TCP and UDP socket shim and the properties
    of its resolver, its [open] routines and its exact-length reads.

    The C code talks to the operating system; here the operating system is
    an explicit state: a heap of [struct addrinfo] nodes, the set of open
    descriptors, [errno], the log of the system calls performed so far and
    the answers the system will give to the calls still to come.  Byte
    buffers live in a flat byte memory indexed by address. *)

From stdpp Require Import gmap strings list.
From Stdlib Require Import ZArith Lia.
From Stdlib Require Import Strings.Byte.

Local Open Scope Z_scope.

(** ** C integer types (LP64 unix: 32-bit [int], 64-bit [size_t]) *)

Module CInt.

Definition INT_MAX : Z := 2147483647.
Definition INT_MIN : Z := -2147483648.

(** Conversion to [int]: reduction modulo 2^32 into [INT_MIN .. INT_MAX]. *)
Definition to_int (z : Z) : Z := (z + 2 ^ 31) mod 2 ^ 32 - 2 ^ 31.

(** Conversion to [size_t]: reduction modulo 2^64. *)
Definition to_size_t (z : Z) : Z := z mod 2 ^ 64.

End CInt.
Import CInt.

(** ** Byte memory and the receiving side of one socket *)

Module Channel.

(** What one [recv] call on the socket meets: bytes that have arrived
    (none at all once the peer has closed), or a failure, in which case
    the call returns the negative value [ret]. *)
Inductive recv_answer :=
| RecvData (bs : list byte)
| RecvErr (ret : Z).

Definition is_data (a : recv_answer) : Prop :=
  match a with RecvData _ => True | RecvErr _ => False end.

(** A failing receive returns a negative [int]. *)
Definition wf_answer (a : recv_answer) : Prop :=
  match a with RecvData _ => True | RecvErr r => INT_MIN <= r < 0 end.

(** The peer delivers at least one byte. *)
Definition delivers (a : recv_answer) : Prop :=
  match a with RecvData bs => bs <> [] | RecvErr _ => False end.

Fixpoint store_bytes (m : gmap Z byte) (ptr : Z) (bs : list byte) : gmap Z byte :=
  match bs with
  | [] => m
  | b :: bs' => store_bytes (<[ptr := b]> m) (ptr + 1) bs'
  end.

Definition load_bytes (m : gmap Z byte) (ptr : Z) (n : nat) : list (option byte) :=
  map (fun i => m !! (ptr + Z.of_nat i)) (seq 0 n).

(** [recv(sock, ptr, len, 0)] against the answer [a]: at most [len] of the
    arrived bytes are copied to [ptr .. ptr+len) and their number is
    returned; a failure leaves the memory alone. *)
Definition recv (sock ptr len flags : Z) (a : recv_answer) (m : gmap Z byte)
  : Z * gmap Z byte :=
  match a with
  | RecvData bs =>
      let got := take (Z.to_nat len) bs in
      (Z.of_nat (length got), store_bytes m ptr got)
  | RecvErr ret => (ret, m)
  end.

End Channel.
Import Channel.

(** ** Exact-length reads *)

(** Where a call of [read_exact] stands once the answers are used up. *)
Inductive read_outcome :=
| Returned (v : Z) (m : gmap Z byte) (rest : list recv_answer)
    (** the function returned [v] *)
| InRead (ptr n : Z) (m : gmap Z byte)
    (** still inside the loop, in a read of [n] bytes at [ptr] *).

(** [int _zn_tcp_read(_zn_socket_t sock, uint8_t *ptr, size_t len)] *)
Definition _zn_tcp_read (sock ptr len : Z) (a : recv_answer) (m : gmap Z byte)
  : Z * gmap Z byte :=
  let '(r, m') := recv sock ptr len 0 a m in (to_int r, m').

(** [int _zn_udp_read(_zn_socket_t sock, uint8_t *ptr, size_t len)] *)
Definition _zn_udp_read (sock ptr len : Z) (a : recv_answer) (m : gmap Z byte)
  : Z * gmap Z byte :=
  let '(r, m') := recv sock ptr len 0 a m in (to_int r, m').

(** The [do { ... } while (n > 0)] loop of [_zn_tcp_read_exact]; one answer
    of the channel is consumed by each turn.  [n] and [rb] are [int]s and
    [len] is a [size_t]: [n] is converted where it meets [len] or is passed
    as a count, and arithmetic that leaves the range of its type wraps. *)
Fixpoint _zn_tcp_read_exact_loop (sock len ptr n : Z) (m : gmap Z byte)
    (inc : list recv_answer) : read_outcome :=
  match inc with
  | [] => InRead ptr n m
  | a :: inc' =>
      let '(rb, m') := _zn_tcp_read sock ptr (to_size_t n) a m in
      if rb <? 0 then Returned rb m' inc'
      else
        let n' := to_int (n - rb) in
        let ptr' := ptr + to_size_t (len - to_size_t n') in
        if 0 <? n' then _zn_tcp_read_exact_loop sock len ptr' n' m' inc'
        else Returned (to_int len) m' inc'
  end.

(** [int _zn_tcp_read_exact(_zn_socket_t sock, uint8_t *ptr, size_t len)] *)
Definition _zn_tcp_read_exact (sock ptr len : Z) (m : gmap Z byte)
    (inc : list recv_answer) : read_outcome :=
  _zn_tcp_read_exact_loop sock len ptr (to_int len) m inc.

(** The loop of [_zn_udp_read_exact]. *)
Fixpoint _zn_udp_read_exact_loop (sock len ptr n : Z) (m : gmap Z byte)
    (inc : list recv_answer) : read_outcome :=
  match inc with
  | [] => InRead ptr n m
  | a :: inc' =>
      let '(rb, m') := _zn_udp_read sock ptr (to_size_t n) a m in
      if rb <? 0 then Returned rb m' inc'
      else
        let n' := to_int (n - rb) in
        let ptr' := ptr + to_size_t (len - to_size_t n') in
        if 0 <? n' then _zn_udp_read_exact_loop sock len ptr' n' m' inc'
        else Returned (to_int len) m' inc'
  end.

(** [int _zn_udp_read_exact(_zn_socket_t sock, uint8_t *ptr, size_t len)] *)
Definition _zn_udp_read_exact (sock ptr len : Z) (m : gmap Z byte)
    (inc : list recv_answer) : read_outcome :=
  _zn_udp_read_exact_loop sock len ptr (to_int len) m inc.

(** ** The operating system *)

(** A [struct addrinfo *]. *)
Inductive cptr := NULL | Ptr (p : positive).

#[global] Instance cptr_eq_dec : EqDecision cptr.
Proof. solve_decision. Defined.

(** [struct addrinfo]; [ai_addr] names the socket address the node points to. *)
Record addrinfo := Addrinfo {
  ai_flags : Z;
  ai_family : Z;
  ai_socktype : Z;
  ai_protocol : Z;
  ai_addrlen : Z;
  ai_addr : Z;
  ai_next : cptr }.

(** Values of <sys/socket.h>, <netinet/in.h> and <netdb.h>. *)
Definition PF_UNSPEC : Z := 0.
Definition SOCK_STREAM : Z := 1.
Definition SOCK_DGRAM : Z := 2.
Definition IPPROTO_TCP : Z := 6.
Definition IPPROTO_UDP : Z := 17.
Definition AI_PASSIVE : Z := 1.

(** The option a [setsockopt(fd, SOL_SOCKET, ...)] call sets, with its value. *)
Inductive sockopt :=
| SO_KEEPALIVE (flags : Z)
| SO_LINGER (l_onoff l_linger : Z)
| SO_NOSIGPIPE
| SO_RCVTIMEO (tv_sec tv_usec : Z)
| SO_SNDTIMEO (tv_sec tv_usec : Z).

(** The system calls, as they are logged. *)
Inductive event :=
| EvGetaddrinfo (node : option string) (service : string) (hints : addrinfo) (rc : Z)
| EvFreeaddrinfo (p : cptr)
| EvSocket (family type protocol ret : Z)
| EvSetsockopt (fd : Z) (opt : sockopt) (ret : Z)
| EvConnect (fd addr addrlen ret : Z)
| EvClose (fd : Z).

(** What name resolution answers: a non-empty list of addresses, or a
    non-zero [EAI_*] code. *)
Inductive gai_answer :=
| GaiOk (a : addrinfo) (rest : list addrinfo)
| GaiErr (rc : Z).

Record os := OS {
  heap : gmap positive addrinfo;   (** the live [addrinfo] nodes *)
  fds : gset Z;                    (** the open descriptors *)
  errno : Z;
  trace : list event;              (** the calls made so far, oldest first *)
  answers : list (Z * Z);          (** return value and [errno] of the next
                                       [socket], [setsockopt], [connect] calls *)
  resolv : list gai_answer         (** answers of the next [getaddrinfo] calls *)
}.

(** A computation against the system either returns, or has undefined
    behaviour (it reads through a pointer that is not live), or sits in a
    system call the environment has no answer for. *)
Inductive outcome (A : Type) :=
| Ret (a : A) (w : os)
| Fault (w : os)
| Blocked (w : os).
Arguments Ret {A} a w.
Arguments Fault {A} w.
Arguments Blocked {A} w.

Definition M (A : Type) : Type := os -> outcome A.

#[global] Instance os_ret : MRet M := fun A (a : A) w => Ret a w.

#[global] Instance os_bind : MBind M := fun A B (k : A -> M B) (c : M A) w =>
  match c w with
  | Ret a w' => k a w'
  | Fault w' => Fault w'
  | Blocked w' => Blocked w'
  end.

(** The world in which an outcome was reached. *)
Definition world_of {A} (o : outcome A) : os :=
  match o with Ret _ w | Fault w | Blocked w => w end.

(** A call that returns an [int] and sets [errno] when it fails. *)
Definition int_call (ev : Z -> event) (effect : Z -> gset Z -> gset Z) : M Z := fun w =>
  match answers w with
  | [] => Blocked w
  | (r, e) :: rest =>
      Ret r {| heap := heap w;
               fds := if r <? 0 then fds w else effect r (fds w);
               errno := if r <? 0 then e else errno w;
               trace := trace w ++ [ev r];
               answers := rest;
               resolv := resolv w |}
  end.

Definition socket (family type protocol : Z) : M Z :=
  int_call (EvSocket family type protocol) (fun fd s => {[fd]} ∪ s).

Definition setsockopt (fd : Z) (opt : sockopt) : M Z :=
  int_call (EvSetsockopt fd opt) (fun _ s => s).

Definition connect (fd addr addrlen : Z) : M Z :=
  int_call (EvConnect fd addr addrlen) (fun _ s => s).

(** [errno] of a call on a descriptor that is not open (<errno.h>). *)
Definition EBADF : Z := 9.

(** [close(fd)] releases [fd] when it is open; on a descriptor that is not
    open it fails with [EBADF] and releases nothing. *)
Definition close (fd : Z) : M Z := fun w =>
  Ret (if bool_decide (fd ∈ fds w) then 0 else -1)
      {| heap := heap w; fds := fds w ∖ {[fd]};
         errno := if bool_decide (fd ∈ fds w) then errno w else EBADF;
         trace := trace w ++ [EvClose fd]; answers := answers w;
         resolv := resolv w |}.

Definition get_errno : M Z := fun w => Ret (errno w) w.

(** Reading [*p]. *)
Definition deref (p : cptr) : M addrinfo := fun w =>
  match p with
  | NULL => Fault w
  | Ptr q => match heap w !! q with Some nd => Ret nd w | None => Fault w end
  end.

(** Reading a local pointer variable that may never have been assigned. *)
Definition load_local (v : option cptr) : M cptr := fun w =>
  match v with Some p => Ret p w | None => Fault w end.

(** The node for address [a], linked to [nx]. *)
Definition relink (a : addrinfo) (nx : cptr) : addrinfo :=
  {| ai_flags := ai_flags a; ai_family := ai_family a; ai_socktype := ai_socktype a;
     ai_protocol := ai_protocol a; ai_addrlen := ai_addrlen a; ai_addr := ai_addr a;
     ai_next := nx |}.

(** The nodes [getaddrinfo] allocates for a list of addresses, linked
    through [ai_next] in the order of the list. *)
Fixpoint alloc_chain (h : gmap positive addrinfo) (l : list addrinfo)
  : cptr * gmap positive addrinfo :=
  match l with
  | [] => (NULL, h)
  | a :: l' =>
      let '(nx, h') := alloc_chain h l' in
      let p := fresh (dom h') in
      (Ptr p, <[p := relink a nx]> h')
  end.

(** [getaddrinfo(node, service, &hints, &res)]: the return code, and the
    value stored to [res] when there is one. *)
Definition getaddrinfo (node : option string) (service : string) (hints : addrinfo)
  : M (Z * option cptr) := fun w =>
  match resolv w with
  | [] => Blocked w
  | GaiErr rc :: rest =>
      Ret (rc, None)
          {| heap := heap w; fds := fds w; errno := errno w;
             trace := trace w ++ [EvGetaddrinfo node service hints rc];
             answers := answers w; resolv := rest |}
  | GaiOk a l :: rest =>
      let '(p, h') := alloc_chain (heap w) (a :: l) in
      Ret (0, Some p)
          {| heap := h'; fds := fds w; errno := errno w;
             trace := trace w ++ [EvGetaddrinfo node service hints 0];
             answers := answers w; resolv := rest |}
  end.

(** [freeaddrinfo] walks the list from [p] and releases every node; it
    does nothing on [NULL]. *)
Fixpoint free_chain (fuel : nat) (p : cptr) (h : gmap positive addrinfo)
  : option (gmap positive addrinfo) :=
  match p with
  | NULL => Some h
  | Ptr q =>
      match fuel, h !! q with
      | S fuel', Some nd => free_chain fuel' (ai_next nd) (delete q h)
      | _, _ => None
      end
  end.

Definition freeaddrinfo (p : cptr) : M unit := fun w =>
  match free_chain (size (heap w)) p (heap w) with
  | Some h' =>
      Ret tt {| heap := h'; fds := fds w; errno := errno w;
                trace := trace w ++ [EvFreeaddrinfo p];
                answers := answers w; resolv := resolv w |}
  | None => Fault w
  end.

(** ** Configuration the file takes from the rest of the library *)

(** [ZN_TRANSPORT_LEASE] (milliseconds) and the two error codes come from
    the library's configuration and result headers; [ZENOH_MACOS] is the
    build's platform switch. *)
Class Platform := {
  ZN_TRANSPORT_LEASE : Z;
  _zn_err_t_TX_CONNECTION : Z;
  _zn_err_t_INVALID_LOCATOR : Z;
  ZENOH_MACOS : bool }.

(** [_zn_socket_result_t]: the tag with the member of the union it selects.
    The members [socket] and [error] of [r.value] share their storage: once
    [r.value.error] has been assigned, [r.value.socket] reads that value. *)
Inductive _zn_socket_result_t :=
| _z_res_t_OK (socket : Z)
| _z_res_t_ERR (error : Z).

Section Network.
Context `{Platform}.

(** [void* _zn_create_tcp_endpoint(const char *s_addr, const char *port)] *)
Definition _zn_create_tcp_endpoint (s_addr port : string) : M cptr :=
  let hints := {| ai_flags := 0; ai_family := PF_UNSPEC; ai_socktype := SOCK_STREAM;
                  ai_protocol := IPPROTO_TCP; ai_addrlen := 0; ai_addr := 0;
                  ai_next := NULL |} in
  '(rc, res) ← getaddrinfo (Some s_addr) port hints;
  if negb (rc =? 0) then mret NULL
  else
    addr ← load_local res;
    nd ← deref addr;
    _ ← freeaddrinfo (ai_next nd);
    mret addr.

(** The [for (it = raddr; it != NULL; it = it->ai_next)] loop of
    [_zn_tcp_open], entered with [it]; every turn makes one [connect] call.
    [fuel] bounds the number of turns. *)
Fixpoint _zn_tcp_open_loop (fuel : nat) (sock : Z) (it : cptr) : M _zn_socket_result_t :=
  match it with
  | NULL => mret (_z_res_t_OK sock)
  | Ptr _ =>
      match fuel with
      | O => fun w => Blocked w
      | S fuel' =>
          nd ← deref it;
          rc ← connect sock (ai_addr nd) (ai_addrlen nd);
          if rc <? 0 then
            if decide (ai_next nd = NULL) then mret (_z_res_t_ERR _zn_err_t_TX_CONNECTION)
            else _zn_tcp_open_loop fuel' sock (ai_next nd)
          else mret (_z_res_t_OK sock)
      end
  end.

(** The loop, run from [raddr]: a turn uses up one answer, so the loop
    cannot make more turns than there are answers. *)
Definition _zn_tcp_open_fallback (sock : Z) (raddr : cptr) : M _zn_socket_result_t :=
  fun w => _zn_tcp_open_loop (S (length (answers w))) sock raddr w.

(** [_zn_socket_result_t _zn_tcp_open(void *arg)].  Where an option cannot
    be set, [r.value.error = errno] comes before [close(r.value.socket)], so
    [close] is given the value of [errno]. *)
Definition _zn_tcp_open (arg : cptr) : M _zn_socket_result_t :=
  raddr ← deref arg;
  sock ← socket (ai_family raddr) (ai_socktype raddr) (ai_protocol raddr);
  if sock <? 0 then mret (_z_res_t_ERR sock)
  else
    let flags := 1 in
    r1 ← setsockopt sock (SO_KEEPALIVE flags);
    if r1 <? 0 then
      e ← get_errno; _ ← close e; mret (_z_res_t_ERR e)
    else
      r2 ← setsockopt sock (SO_LINGER 1 (ZN_TRANSPORT_LEASE ÷ 1000));
      if r2 <? 0 then
        e ← get_errno; _ ← close e; mret (_z_res_t_ERR e)
      else
        _ ← (if ZENOH_MACOS then setsockopt sock SO_NOSIGPIPE else mret 0) : M Z;
        _zn_tcp_open_fallback sock arg.

(** [void* _zn_create_udp_endpoint(const char *s_addr, const char *port)] *)
Definition _zn_create_udp_endpoint (s_addr port : string) : M cptr :=
  let hints := {| ai_flags := 0; ai_family := PF_UNSPEC; ai_socktype := SOCK_DGRAM;
                  ai_protocol := IPPROTO_UDP; ai_addrlen := 0; ai_addr := 0;
                  ai_next := NULL |} in
  '(rc, res) ← getaddrinfo (Some s_addr) port hints;
  if rc <? 0 then mret NULL
  else
    addr ← load_local res;
    nd ← deref addr;
    _ ← freeaddrinfo (ai_next nd);
    mret addr.

(** [_zn_socket_result_t _zn_udp_open(void* arg, const clock_t tout)].
    Here too [close(r.value.socket)] follows [r.value.error = errno]. *)
Definition _zn_udp_open (arg : cptr) (tout : Z) : M _zn_socket_result_t :=
  raddr ← deref arg;
  let hints := {| ai_flags := AI_PASSIVE; ai_family := ai_family raddr;
                  ai_socktype := ai_socktype raddr; ai_protocol := ai_protocol raddr;
                  ai_addrlen := 0; ai_addr := 0; ai_next := NULL |} in
  '(rc, res) ← getaddrinfo None "0" hints;
  if negb (rc =? 0) then mret (_z_res_t_ERR _zn_err_t_INVALID_LOCATOR)
  else
    laddr ← load_local res;
    l ← deref laddr;
    sock ← socket (ai_family l) (ai_socktype l) (ai_protocol l);
    if sock <? 0 then mret (_z_res_t_ERR sock)
    else
      r1 ← setsockopt sock (SO_RCVTIMEO 0 tout);
      if r1 =? -1 then
        e ← get_errno; _ ← close e; mret (_z_res_t_ERR e)
      else
        r2 ← setsockopt sock (SO_SNDTIMEO 0 tout);
        if r2 =? -1 then
          e ← get_errno; _ ← close e; mret (_z_res_t_ERR e)
        else
          _ ← freeaddrinfo laddr;
          mret (_z_res_t_OK sock).

End Network.

(** ** Well-formed address lists *)

(** [chain h p l]: from [p], the live nodes of [h] linked through
    [ai_next] are exactly [l], and the last one ends the list. *)
Fixpoint chain (h : gmap positive addrinfo) (p : cptr) (l : list addrinfo) : Prop :=
  match l with
  | [] => p = NULL
  | a :: l' =>
      exists q, p = Ptr q /\ h !! q = Some a /\ chain h (ai_next a) l'
  end.

(** ** Vocabulary of the statements *)

(** The bytes a run of answers delivers. *)
Fixpoint delivered (inc : list recv_answer) : Z :=
  match inc with
  | [] => 0
  | RecvData bs :: inc' => Z.of_nat (length bs) + delivered inc'
  | RecvErr _ :: inc' => delivered inc'
  end.

(** The hints the three resolutions pass to [getaddrinfo]. *)
Definition tcp_hints : addrinfo :=
  {| ai_flags := 0; ai_family := PF_UNSPEC; ai_socktype := SOCK_STREAM;
     ai_protocol := IPPROTO_TCP; ai_addrlen := 0; ai_addr := 0; ai_next := NULL |}.

Definition udp_hints : addrinfo :=
  {| ai_flags := 0; ai_family := PF_UNSPEC; ai_socktype := SOCK_DGRAM;
     ai_protocol := IPPROTO_UDP; ai_addrlen := 0; ai_addr := 0; ai_next := NULL |}.

Definition udp_local_hints (raddr : addrinfo) : addrinfo :=
  {| ai_flags := AI_PASSIVE; ai_family := ai_family raddr;
     ai_socktype := ai_socktype raddr; ai_protocol := ai_protocol raddr;
     ai_addrlen := 0; ai_addr := 0; ai_next := NULL |}.

(** The [connect] calls on the candidates [cands], answered by [rets]. *)
Definition connect_events (sock : Z) (cands : list addrinfo) (rets : list (Z * Z))
  : list event :=
  zip_with (fun a r => EvConnect sock (ai_addr a) (ai_addrlen a) r.1) cands rets.

(** [errno] after the calls answered by [ans]: that of the last failure. *)
Definition last_errno (e0 : Z) (ans : list (Z * Z)) : Z :=
  foldl (fun e x => if x.1 <? 0 then x.2 else e) e0 ans.

Definition sets_linger (ev : event) : Prop :=
  match ev with EvSetsockopt _ (SO_LINGER _ _) _ => True | _ => False end.

(** The calls of [_zn_tcp_open] before the first [connect], when none of
    them stops it; [nosig] answers the [SO_NOSIGPIPE] call where there is one. *)
Definition tcp_setup_events `{Platform} (raddr : addrinfo) (sock r1 r2 : Z)
    (nosig : list (Z * Z)) : list event :=
  [EvSocket (ai_family raddr) (ai_socktype raddr) (ai_protocol raddr) sock;
   EvSetsockopt sock (SO_KEEPALIVE 1) r1;
   EvSetsockopt sock (SO_LINGER 1 (ZN_TRANSPORT_LEASE ÷ 1000)) r2]
  ++ map (fun x => EvSetsockopt sock SO_NOSIGPIPE x.1) nosig.

(** ** A configuration and a host for the examples *)

(** A lease of ten seconds; the two error codes are stand-ins for the
    values of the library's enumerators. *)
Definition example_platform (macos : bool) : Platform :=
  {| ZN_TRANSPORT_LEASE := 10000;
     _zn_err_t_TX_CONNECTION := 1001;
     _zn_err_t_INVALID_LOCATOR := 1002;
     ZENOH_MACOS := macos |}.

(** An IPv6 and an IPv4 stream address of one host. *)
Definition addr6 : addrinfo :=
  {| ai_flags := 0; ai_family := 10; ai_socktype := SOCK_STREAM;
     ai_protocol := IPPROTO_TCP; ai_addrlen := 28; ai_addr := 6001; ai_next := NULL |}.

Definition addr4 : addrinfo :=
  {| ai_flags := 0; ai_family := 2; ai_socktype := SOCK_STREAM;
     ai_protocol := IPPROTO_TCP; ai_addrlen := 16; ai_addr := 4001; ai_next := NULL |}.

(** A world holding the list [addr6 -> addr4] at [Ptr 2], and the answers
    [ans] and [res] to come. *)
Definition example_world (ans : list (Z * Z)) (res : list gai_answer) : os :=
  {| heap := {[ 1%positive := addr4; 2%positive := relink addr6 (Ptr 1) ]};
     fds := ∅; errno := 0; trace := []; answers := ans; resolv := res |}.

(** A world holding the single address [addr4] at [Ptr 1]. *)
Definition single_world (ans : list (Z * Z)) (res : list gai_answer) : os :=
  {| heap := {[ 1%positive := addr4 ]};
     fds := ∅; errno := 0; trace := []; answers := ans; resolv := res |}.

(** ** The calls on an open socket *)

Definition MSG_NOSIGNAL : Z := 16384.

(** The calls that act on a socket once it is open. *)
Inductive io_event :=
| EvShutdown (fd how ret : Z)
| EvSend (fd : Z) (data : list byte) (flags ret : Z)
| EvSendto (fd : Z) (data : list byte) (flags addr addrlen ret : Z).

(** A computation that also reports the calls it made on the socket. *)
Definition IO (A : Type) : Type := os -> outcome A * list io_event.

(** Such a call returns an [int] or a count and sets [errno] when it
    fails; it leaves the descriptors and the address nodes alone. *)
Definition io_call (ev : Z -> io_event) : IO Z := fun w =>
  match answers w with
  | [] => (Blocked w, [])
  | (r, e) :: rest =>
      (Ret r {| heap := heap w; fds := fds w;
                errno := if r <? 0 then e else errno w;
                trace := trace w; answers := rest; resolv := resolv w |},
       [ev r])
  end.


Definition send (fd : Z) (data : list byte) (flags : Z) : IO Z :=
  io_call (EvSend fd data flags).

Definition sendto (fd : Z) (data : list byte) (flags addr addrlen : Z) : IO Z :=
  io_call (EvSendto fd data flags addr addrlen).

(** The value a function declared [int] returns for the count [r]. *)
Definition as_int (o : outcome Z) : outcome Z :=
  match o with
  | Ret r w => Ret (to_int r) w
  | Fault w => Fault w
  | Blocked w => Blocked w
  end.


(** [int _zn_tcp_send(_zn_socket_t sock, const uint8_t *ptr, size_t len)];
    [data] is the [len] bytes at [ptr], [ZENOH_LINUX] the build's switch. *)
Definition _zn_tcp_send (ZENOH_LINUX : bool) (sock : Z) (data : list byte) : IO Z :=
  fun w =>
    let '(o, evs) := send sock data (if ZENOH_LINUX then MSG_NOSIGNAL else 0) w in
    (as_int o, evs).

(** [int _zn_udp_close(_zn_socket_t sock)] *)
Definition _zn_udp_close (sock : Z) : M Z := close sock.

(** [int _zn_udp_send(_zn_socket_t sock, const uint8_t *ptr, size_t len, void *arg)] *)
Definition _zn_udp_send (sock : Z) (data : list byte) (arg : cptr) : IO Z := fun w =>
  match deref arg w with
  | Ret raddr w' =>
      let '(o, evs) := sendto sock data 0 (ai_addr raddr) (ai_addrlen raddr) w' in
      (as_int o, evs)
  | Fault w' => (Fault w', [])
  | Blocked w' => (Blocked w', [])
  end.

(** The memory with which a call of [read_exact] returned or stands. *)
Definition memory_of (o : read_outcome) : gmap Z byte :=
  match o with Returned _ m _ | InRead _ _ m => m end.

(** [c] neither allocates nor releases an address node and resolves no name. *)
Definition keeps_nodes {A} (c : M A) : Prop :=
  forall w, heap (world_of (c w)) = heap w /\ resolv (world_of (c w)) = resolv w.

(** * Properties *)

(** ** Integer conversions *)

Lemma to_int_id z : INT_MIN <= z <= INT_MAX -> to_int z = z.
Proof.
  unfold to_int, INT_MIN, INT_MAX. intros Hz.
  rewrite Z.mod_small; lia.
Qed.

Lemma to_size_t_id z : 0 <= z <= INT_MAX -> to_size_t z = z.
Proof. unfold to_size_t, INT_MAX. intros Hz. rewrite Z.mod_small; lia. Qed.

(** ** The two transports share one read loop *)

Lemma udp_read_is_tcp_read sock ptr len a m :
  _zn_udp_read sock ptr len a m = _zn_tcp_read sock ptr len a m.
Proof. reflexivity. Qed.

Lemma udp_loop_is_tcp_loop sock len inc : forall ptr n m,
  _zn_udp_read_exact_loop sock len ptr n m inc
  = _zn_tcp_read_exact_loop sock len ptr n m inc.
Proof.
  induction inc as [|a inc IH]; intros ptr n m; simpl; [reflexivity|].
  rewrite udp_read_is_tcp_read.
  destruct (_zn_tcp_read sock ptr (to_size_t n) a m) as [rb m1].
  destruct (rb <? 0); [reflexivity|].
  destruct (0 <? to_int (n - rb)); [apply IH | reflexivity].
Qed.

Lemma udp_read_exact_is_tcp sock ptr len m inc :
  _zn_udp_read_exact sock ptr len m inc = _zn_tcp_read_exact sock ptr len m inc.
Proof. apply udp_loop_is_tcp_loop. Qed.

(** ** One turn of the loop *)

Lemma take_count_le (bs : list byte) n :
  0 <= n -> 0 <= Z.of_nat (length (take (Z.to_nat n) bs)) <= n.
Proof. intros Hn. rewrite length_take. lia. Qed.

Lemma tcp_read_data sock ptr n bs m :
  0 <= n <= INT_MAX ->
  _zn_tcp_read sock ptr (to_size_t n) (RecvData bs) m
  = (Z.of_nat (length (take (Z.to_nat n) bs)),
     store_bytes m ptr (take (Z.to_nat n) bs)).
Proof.
  intros Hn. unfold _zn_tcp_read, recv. rewrite to_size_t_id by assumption.
  f_equal. apply to_int_id.
  pose proof (take_count_le bs n (proj1 Hn)). unfold INT_MIN. unfold INT_MAX in *. lia.
Qed.

Lemma tcp_read_err sock ptr n r m :
  INT_MIN <= r < 0 ->
  _zn_tcp_read sock ptr n (RecvErr r) m = (r, m).
Proof.
  intros Hr. unfold _zn_tcp_read, recv. f_equal. apply to_int_id.
  unfold INT_MAX. lia.
Qed.

Lemma tcp_loop_result sock len inc :
  0 <= len <= INT_MAX -> Forall wf_answer inc ->
  forall ptr n m v m' rest, 0 <= n <= len ->
    _zn_tcp_read_exact_loop sock len ptr n m inc = Returned v m' rest ->
    v = len \/
    (v < 0 /\ exists pre, inc = pre ++ RecvErr v :: rest /\ Forall is_data pre).
Proof.
  intros Hlen Hwf. induction Hwf as [|a inc Ha Hwf IH]; intros ptr n m v m' rest Hn; simpl.
  - discriminate.
  - destruct a as [bs|r].
    + rewrite tcp_read_data by lia.
      pose proof (take_count_le bs n (proj1 Hn)) as Hrb.
      set (rb := Z.of_nat (length (take (Z.to_nat n) bs))) in *.
      destruct (Z.ltb_spec rb 0) as [?|_]; [lia|].
      rewrite (to_int_id (n - rb)) by (unfold INT_MIN; unfold INT_MAX in *; lia).
      destruct (Z.ltb_spec 0 (n - rb)) as [Hpos|Hz].
      * intros Hrun. apply IH in Hrun; [|lia].
        destruct Hrun as [->|(Hneg & pre & -> & Hpre)]; [now left|].
        right. split; [assumption|]. exists (RecvData bs :: pre).
        split; [reflexivity|]. constructor; [exact I | assumption].
      * intros [= <- _ _]. left. apply to_int_id. unfold INT_MIN. lia.
    + simpl in Ha. rewrite tcp_read_err by assumption.
      destruct (Z.ltb_spec r 0) as [_|?]; [|lia].
      intros [= <- _ <-]. right. split; [lia|]. exists []. split; [reflexivity|constructor].
Qed.

(** ** The read loop *)

Lemma delivered_nonneg inc : 0 <= delivered inc.
Proof. induction inc as [|[bs|r] inc IH]; simpl; lia. Qed.

Lemma tcp_read_exact_zero sock ptr m a inc :
  wf_answer a ->
  _zn_tcp_read_exact sock ptr 0 m (a :: inc)
  = Returned (match a with RecvData _ => 0 | RecvErr r => r end) m inc.
Proof.
  intros Ha. unfold _zn_tcp_read_exact. simpl. destruct a as [bs|r].
  - reflexivity.
  - simpl in Ha. change (to_int 0) with 0. rewrite tcp_read_err by assumption.
    destruct (Z.ltb_spec r 0); [reflexivity | lia].
Qed.

(** Reads that deliver nothing and do not fail leave the loop where it is. *)
Lemma tcp_loop_short sock len inc :
  0 <= len <= INT_MAX -> Forall is_data inc ->
  forall ptr n m, 0 <= n <= len -> delivered inc < n ->
    exists ptr' m',
      _zn_tcp_read_exact_loop sock len ptr n m inc = InRead ptr' (n - delivered inc) m'.
Proof.
  intros Hlen Hdata. induction Hdata as [|a inc Ha Hdata IH]; intros ptr n m Hn Hshort; simpl.
  - exists ptr, m. f_equal. lia.
  - destruct a as [bs|r]; [|destruct Ha]. simpl in Hshort.
    pose proof (Zle_0_nat (length bs)) as Hbs0.
    pose proof (delivered_nonneg inc) as Hinc.
    rewrite tcp_read_data by lia.
    rewrite take_ge by lia.
    destruct (Z.ltb_spec (Z.of_nat (length bs)) 0) as [?|_]; [lia|].
    rewrite (to_int_id (n - _)) by (unfold INT_MIN; unfold INT_MAX in *; lia).
    destruct (Z.ltb_spec 0 (n - Z.of_nat (length bs))) as [_|?]; [|lia].
    destruct (IH (ptr + to_size_t (len - to_size_t (n - Z.of_nat (length bs))))
                 (n - Z.of_nat (length bs)) (store_bytes m ptr bs)) as (p' & m' & ->); [lia|lia|].
    exists p', m'. f_equal. lia.
Qed.

Lemma delivered_zero_reads k : delivered (repeat (RecvData []) k) = 0.
Proof. induction k as [|k IH]; simpl; [reflexivity | exact IH]. Qed.

Lemma zero_reads_are_data k : Forall is_data (repeat (RecvData []) k).
Proof. induction k as [|k IH]; simpl; constructor; [exact I | exact IH]. Qed.

Lemma tcp_loop_zero_reads sock len m k :
  0 <= len <= INT_MAX ->
  forall ptr n, 0 < n <= len ->
    _zn_tcp_read_exact_loop sock len ptr n m (repeat (RecvData []) k)
    = InRead (ptr + Z.of_nat k * (len - n)) n m.
Proof.
  intros Hlen. induction k as [|k IH]; intros ptr n Hn.
  - simpl. f_equal. lia.
  - cbn [repeat _zn_tcp_read_exact_loop]. rewrite tcp_read_data by lia.
    rewrite take_nil. cbn [length store_bytes Z.of_nat Z.ltb Z.compare].
    rewrite Z.sub_0_r, (to_int_id n) by (unfold INT_MIN; unfold INT_MAX in *; lia).
    destruct (Z.ltb_spec 0 n) as [_|?]; [|lia].
    rewrite IH by assumption. f_equal.
    rewrite (to_size_t_id n), (to_size_t_id (len - n)) by lia. lia.
Qed.

(** Positive fragments that add up to the remaining count end the loop
    with the requested length. *)
Lemma tcp_loop_fragments sock len rest (frags : list (list byte)) :
  0 <= len <= INT_MAX -> Forall (fun f => f <> []) frags ->
  forall ptr n m, 0 < n <= len -> Z.of_nat (length (concat frags)) = n ->
    exists m', _zn_tcp_read_exact_loop sock len ptr n m (map RecvData frags ++ rest)
               = Returned len m' rest.
Proof.
  intros Hlen Hpos. induction Hpos as [|f frags Hf Hpos IH]; intros ptr n m Hn Hsum.
  - simpl in Hsum. lia.
  - simpl in Hsum. rewrite length_app in Hsum.
    assert (Hlf : (0 < length f)%nat) by (destruct f; [congruence | simpl; lia]).
    cbn [map app _zn_tcp_read_exact_loop]. rewrite tcp_read_data by lia.
    rewrite take_ge by lia.
    destruct (Z.ltb_spec (Z.of_nat (length f)) 0) as [?|_]; [lia|].
    rewrite (to_int_id (n - _)) by (unfold INT_MIN; unfold INT_MAX in *; lia).
    destruct (Z.ltb_spec 0 (n - Z.of_nat (length f))) as [Hmore|Hdone].
    + apply IH; lia.
    + assert (frags = []) as ->.
      { destruct Hpos as [|g frags Hg _]; [reflexivity|].
        simpl in Hsum. rewrite length_app in Hsum.
        destruct g; [congruence | simpl in Hsum; lia]. }
      simpl. eexists. f_equal. apply to_int_id. unfold INT_MIN. lia.
Qed.

(** When every read makes progress the loop returns within [max 1 len] reads. *)
Lemma tcp_loop_progress sock len inc :
  0 <= len <= INT_MAX -> Forall (fun a => wf_answer a /\ (is_data a -> delivers a)) inc ->
  forall ptr n m, 0 <= n <= len -> (1 <= length inc)%nat -> n <= Z.of_nat (length inc) ->
    exists v m' rest, _zn_tcp_read_exact_loop sock len ptr n m inc = Returned v m' rest.
Proof.
  intros Hlen Hall. induction Hall as [|a inc [Hwf Ha] Hall IH]; intros ptr n m Hn H1 Hfuel.
  - simpl in H1. lia.
  - simpl. destruct a as [bs|r].
    + rewrite tcp_read_data by lia.
      pose proof (take_count_le bs n (proj1 Hn)) as Hrb.
      assert (Hgot : 0 < n -> 0 < Z.of_nat (length (take (Z.to_nat n) bs))).
      { intros Hpos. rewrite length_take. specialize (Ha I). simpl in Ha.
        destruct bs; [congruence | simpl; lia]. }
      set (rb := Z.of_nat (length (take (Z.to_nat n) bs))) in *.
      destruct (Z.ltb_spec rb 0) as [?|_]; [lia|].
      rewrite (to_int_id (n - rb)) by (unfold INT_MIN; unfold INT_MAX in *; lia).
      destruct (Z.ltb_spec 0 (n - rb)) as [Hmore|Hdone]; [|eauto].
      simpl in Hfuel. apply IH; [lia | | lia].
      destruct inc; simpl in *; lia.
    + simpl in Hwf. rewrite tcp_read_err by assumption.
      destruct (Z.ltb_spec r 0); [eauto | lia].
Qed.

(** ** Buffers *)

Lemma store_bytes_app m ptr xs ys :
  store_bytes m ptr (xs ++ ys)
  = store_bytes (store_bytes m ptr xs) (ptr + Z.of_nat (length xs)) ys.
Proof.
  revert m ptr. induction xs as [|x xs IH]; intros m ptr.
  - simpl. now rewrite Z.add_0_r.
  - cbn [app store_bytes length]. rewrite IH. f_equal. lia.
Qed.

Lemma store_bytes_below m ptr bs k :
  k < ptr -> store_bytes m ptr bs !! k = m !! k.
Proof.
  revert m ptr. induction bs as [|b bs IH]; intros m ptr Hk; [reflexivity|].
  simpl. rewrite IH by lia. apply lookup_insert_ne. lia.
Qed.

Lemma load_bytes_cons m ptr n :
  load_bytes m ptr (S n) = m !! ptr :: load_bytes m (ptr + 1) n.
Proof.
  unfold load_bytes. cbn [seq map]. rewrite Z.add_0_r. f_equal.
  rewrite <- seq_shift, map_map. apply map_ext. intros i. f_equal. lia.
Qed.

Lemma load_stored_bytes m ptr bs :
  load_bytes (store_bytes m ptr bs) ptr (length bs) = map Some bs.
Proof.
  revert m ptr. induction bs as [|b bs IH]; intros m ptr; [reflexivity|].
  cbn [length map store_bytes]. rewrite load_bytes_cons, IH. f_equal.
  rewrite store_bytes_below by lia. apply lookup_insert_eq.
Qed.

(** A payload that arrives in one piece or in two is stored in order from
    the start of the buffer. *)
Lemma read_exact_one_fragment sock ptr m (f1 : list byte) rest :
  f1 <> [] -> Z.of_nat (length f1) <= INT_MAX ->
  _zn_tcp_read_exact sock ptr (Z.of_nat (length f1)) m (RecvData f1 :: rest)
  = Returned (Z.of_nat (length f1)) (store_bytes m ptr f1) rest
  /\ load_bytes (store_bytes m ptr f1) ptr (length f1) = map Some f1.
Proof.
  intros Hf1 Hmax. split; [|apply load_stored_bytes].
  unfold _zn_tcp_read_exact. rewrite to_int_id by (unfold INT_MIN; lia).
  cbn [_zn_tcp_read_exact_loop]. rewrite tcp_read_data by lia.
  rewrite take_ge by lia.
  destruct (Z.ltb_spec (Z.of_nat (length f1)) 0) as [?|_]; [lia|].
  rewrite Z.sub_diag. change (0 <? to_int 0) with false. cbv iota.
  now rewrite to_int_id by (unfold INT_MIN; lia).
Qed.

Lemma read_exact_two_fragments sock ptr m (f1 f2 : list byte) rest :
  f1 <> [] -> f2 <> [] -> Z.of_nat (length (f1 ++ f2)) <= INT_MAX ->
  _zn_tcp_read_exact sock ptr (Z.of_nat (length (f1 ++ f2))) m
    (RecvData f1 :: RecvData f2 :: rest)
  = Returned (Z.of_nat (length (f1 ++ f2))) (store_bytes m ptr (f1 ++ f2)) rest
  /\ load_bytes (store_bytes m ptr (f1 ++ f2)) ptr (length (f1 ++ f2))
     = map Some (f1 ++ f2).
Proof.
  intros Hf1 Hf2 Hmax. split; [|apply load_stored_bytes].
  assert (0 < length f1)%nat by (destruct f1; [congruence | simpl; lia]).
  assert (0 < length f2)%nat by (destruct f2; [congruence | simpl; lia]).
  rewrite length_app in *.
  unfold _zn_tcp_read_exact. rewrite to_int_id by (unfold INT_MIN; lia).
  cbn [_zn_tcp_read_exact_loop]. rewrite tcp_read_data by lia.
  rewrite take_ge by lia.
  destruct (Z.ltb_spec (Z.of_nat (length f1)) 0) as [?|_]; [lia|].
  replace (Z.of_nat (length f1 + length f2) - Z.of_nat (length f1))
    with (Z.of_nat (length f2)) by lia.
  rewrite (to_int_id (Z.of_nat (length f2))) by (unfold INT_MIN; lia).
  destruct (Z.ltb_spec 0 (Z.of_nat (length f2))) as [_|?]; [|lia].
  rewrite tcp_read_data by lia. rewrite take_ge by lia.
  destruct (Z.ltb_spec (Z.of_nat (length f2)) 0) as [?|_]; [lia|].
  rewrite Z.sub_diag. change (0 <? to_int 0) with false. cbv iota.
  rewrite (to_size_t_id (Z.of_nat (length f2))) by lia.
  rewrite to_size_t_id by lia.
  rewrite to_int_id by (unfold INT_MIN; lia).
  rewrite store_bytes_app. do 3 f_equal. lia.
Qed.

(** ** Running a computation against the system *)

Lemma bind_run {A B} (c : M A) (k : A -> M B) w :
  (c ≫= k) w
  = match c w with
    | Ret a w' => k a w'
    | Fault w' => Fault w'
    | Blocked w' => Blocked w'
    end.
Proof. reflexivity. Qed.

Lemma ret_run {A} (a : A) w : (mret a : M A) w = Ret a w.
Proof. reflexivity. Qed.

Ltac os_simpl :=
  repeat (first [rewrite bind_run | rewrite ret_run];
          cbn [deref load_local get_errno close socket setsockopt connect int_call
               heap fds errno trace answers resolv world_of fst snd]).

(** ** The connect loop of [_zn_tcp_open] *)

Section LoopProofs.
Context `{Platform}.

Lemma chain_cons_next h p a b l : chain h p (a :: b :: l) -> ai_next a <> NULL.
Proof.
  intros (q & _ & _ & (q' & Hq' & _)). congruence.
Qed.

Lemma tcp_open_loop_skip sock pre : forall fails it w a post tail fuel,
  chain (heap w) it (pre ++ a :: post) ->
  length fails = length pre -> Forall (fun x => x.1 < 0) fails ->
  answers w = fails ++ tail ->
  exists it',
    chain (heap w) it' (a :: post) /\
    _zn_tcp_open_loop (length pre + fuel) sock it w
    = _zn_tcp_open_loop fuel sock it'
        {| heap := heap w; fds := fds w; errno := last_errno (errno w) fails;
           trace := trace w ++ connect_events sock pre fails;
           answers := tail; resolv := resolv w |}.
Proof.
  induction pre as [|c pre IH]; intros fails it w a post tail fuel Hch Hlen Hneg Hans.
  - destruct fails; [|discriminate]. exists it. split; [exact Hch|].
    destruct w; simpl in *. subst. now rewrite app_nil_r.
  - destruct fails as [|[r e] fails]; [discriminate|].
    inversion Hneg as [|? ? Hr Hneg']; subst. simpl in Hr.
    pose proof Hch as Hch0.
    destruct Hch as (q & -> & Hq & Hnext).
    assert (Hnn : ai_next c <> NULL).
    { destruct pre; simpl in Hch0; eapply chain_cons_next; exact Hch0. }
    destruct w as [h f e0 t ans rs]; simpl in *. subst ans.
    destruct (IH fails (ai_next c)
                {| heap := h; fds := f; errno := e; trace := t ++ [EvConnect sock (ai_addr c) (ai_addrlen c) r];
                   answers := fails ++ tail; resolv := rs |} a post tail fuel)
      as (it' & Hit' & Hrun); simpl; auto.
    exists it'. split; [exact Hit'|].
    simpl in Hit', Hrun. change (length (c :: pre) + fuel)%nat with (S (length pre + fuel)).
    cbn [_zn_tcp_open_loop]. os_simpl. rewrite Hq. os_simpl. cbn [app].
    destruct (Z.ltb_spec r 0) as [_|?]; [|lia].
    destruct (decide (ai_next c = NULL)) as [?|_]; [contradiction|].
    rewrite Hrun. simpl. unfold connect_events. simpl.
    destruct (Z.ltb_spec r 0) as [_|?]; [|lia].
    now rewrite <- app_assoc.
Qed.

Lemma tcp_open_loop_last sock it w a post r e rest fuel :
  chain (heap w) it (a :: post) -> answers w = (r, e) :: rest ->
  0 <= r \/ post = [] ->
  _zn_tcp_open_loop (S fuel) sock it w
  = Ret (if r <? 0 then _z_res_t_ERR _zn_err_t_TX_CONNECTION else _z_res_t_OK sock)
        {| heap := heap w; fds := fds w; errno := if r <? 0 then e else errno w;
           trace := trace w ++ [EvConnect sock (ai_addr a) (ai_addrlen a) r];
           answers := rest; resolv := resolv w |}.
Proof.
  intros (q & -> & Hq & Hnext) Hans Hcase.
  destruct w as [h f e0 t ans rs]; simpl in *. subst ans.
  os_simpl. rewrite Hq. os_simpl.
  destruct (Z.ltb_spec r 0) as [Hr|Hr]; [|reflexivity].
  destruct Hcase as [?| ->]; [lia|]. simpl in Hnext. rewrite Hnext.
  destruct (decide (NULL = NULL)) as [_|?]; [reflexivity | contradiction].
Qed.

Lemma last_errno_app e0 xs ys :
  last_errno e0 (xs ++ ys) = last_errno (last_errno e0 xs) ys.
Proof. apply foldl_app. Qed.

Lemma connect_events_app sock pre fails a x :
  length fails = length pre ->
  connect_events sock (pre ++ [a]) (fails ++ [x])
  = connect_events sock pre fails ++ [EvConnect sock (ai_addr a) (ai_addrlen a) x.1].
Proof. intros Hlen. unfold connect_events. now rewrite zip_with_app. Qed.

Lemma tcp_open_fallback_run sock pre a post fails r e rest it w :
  chain (heap w) it (pre ++ a :: post) ->
  length fails = length pre -> Forall (fun x => x.1 < 0) fails ->
  answers w = fails ++ (r, e) :: rest ->
  0 <= r \/ post = [] ->
  _zn_tcp_open_fallback sock it w
  = Ret (if r <? 0 then _z_res_t_ERR _zn_err_t_TX_CONNECTION else _z_res_t_OK sock)
        {| heap := heap w; fds := fds w;
           errno := last_errno (errno w) (fails ++ [(r, e)]);
           trace := trace w ++ connect_events sock (pre ++ [a]) (fails ++ [(r, e)]);
           answers := rest; resolv := resolv w |}.
Proof.
  intros Hch Hlen Hneg Hans Hcase. unfold _zn_tcp_open_fallback.
  replace (S (length (answers w))) with (length pre + S (S (length rest)))%nat
    by (rewrite Hans, length_app; simpl; lia).
  destruct (tcp_open_loop_skip sock pre fails it w a post ((r, e) :: rest)
              (S (S (length rest))) Hch Hlen Hneg Hans) as (it' & Hit' & ->).
  erewrite tcp_open_loop_last; [|exact Hit'|reflexivity|exact Hcase].
  cbn [heap fds errno trace answers resolv].
  rewrite last_errno_app, connect_events_app, <- app_assoc by exact Hlen.
  reflexivity.
Qed.

(** The whole of [_zn_tcp_open] when set-up succeeds. *)
Lemma tcp_open_run w arg pre a post sock e0 r1 e1 r2 e2 nosig fails r e rest :
  chain (heap w) arg (pre ++ a :: post) ->
  0 <= sock -> 0 <= r1 -> 0 <= r2 ->
  length nosig = (if ZENOH_MACOS then 1 else 0)%nat ->
  length fails = length pre -> Forall (fun x => x.1 < 0) fails ->
  answers w = (sock, e0) :: (r1, e1) :: (r2, e2) :: nosig ++ fails ++ (r, e) :: rest ->
  0 <= r \/ post = [] ->
  _zn_tcp_open arg w
  = Ret (if r <? 0 then _z_res_t_ERR _zn_err_t_TX_CONNECTION else _z_res_t_OK sock)
        {| heap := heap w; fds := {[sock]} ∪ fds w;
           errno := last_errno (errno w) (nosig ++ fails ++ [(r, e)]);
           trace := trace w ++ tcp_setup_events (hd a pre) sock r1 r2 nosig
                            ++ connect_events sock (pre ++ [a]) (fails ++ [(r, e)]);
           answers := rest; resolv := resolv w |}.
Proof.
  intros Hch Hsock Hr1 Hr2 Hnosig Hlen Hneg Hans Hcase.
  assert (Hhd : exists q, arg = Ptr q /\ heap w !! q = Some (hd a pre)).
  { destruct pre; destruct Hch as (q & -> & Hq & _); eauto. }
  destruct Hhd as (q & Harg & Hq).
  destruct w as [h f e00 t ans rs]; simpl in *. subst ans.
  unfold _zn_tcp_open. rewrite Harg at 1. os_simpl. rewrite Hq. os_simpl.
  destruct (Z.ltb_spec sock 0) as [?|_]; [lia|]. os_simpl.
  destruct (Z.ltb_spec r1 0) as [?|_]; [lia|]. os_simpl.
  destruct (Z.ltb_spec r2 0) as [?|_]; [lia|].
  unfold tcp_setup_events.
  destruct ZENOH_MACOS.
  - destruct nosig as [|[r3 e3] [|? ?]]; try discriminate. cbn [app]. os_simpl.
    erewrite tcp_open_fallback_run; [|exact Hch|exact Hlen|exact Hneg|reflexivity|exact Hcase].
    cbn [heap fds errno trace answers resolv]. f_equal. f_equal.
    all: first [ now destruct (r3 <? 0)
               | now (unfold last_errno; rewrite !foldl_app)
               | now rewrite <- !app_assoc ].
  - destruct nosig; try discriminate. cbn [app]. os_simpl.
    erewrite tcp_open_fallback_run; [|exact Hch|exact Hlen|exact Hneg|reflexivity|exact Hcase].
    cbn [heap fds errno trace answers resolv]. f_equal. f_equal.
    now rewrite <- !app_assoc.
Qed.

End LoopProofs.

(** ** The set-up calls of [_zn_tcp_open] *)

Section OpenProofs.
Context `{Platform}.

Lemma tcp_open_loop_trace fuel sock : forall it w,
  exists post,
    trace (world_of (_zn_tcp_open_loop fuel sock it w)) = trace w ++ post
    /\ Forall (fun ev => ~ sets_linger ev) post.
Proof.
  assert (Hnil : forall w' : os, exists post,
            trace w' = trace w' ++ post /\ Forall (fun ev => ~ sets_linger ev) post)
    by (intros w'; exists []; split; [now rewrite app_nil_r | constructor]).
  induction fuel as [|fuel IH]; intros it w.
  - destruct it; apply Hnil.
  - destruct it as [|q]; [apply Hnil|].
    cbn [_zn_tcp_open_loop]. os_simpl.
    destruct (heap w !! q) as [nd|]; [|apply Hnil].
    os_simpl. unfold connect, int_call.
    destruct (answers w) as [|[r e] rest]; [apply Hnil|].
    set (w1 := {| heap := heap w; fds := _; errno := _; trace := _; answers := rest;
                  resolv := resolv w |}).
    assert (Hone : Forall (fun ev => ~ sets_linger ev)
                     [EvConnect sock (ai_addr nd) (ai_addrlen nd) r])
      by (constructor; [simpl; tauto | constructor]).
    destruct (r <? 0);
      [destruct (decide (ai_next nd = NULL))|];
      try (exists [EvConnect sock (ai_addr nd) (ai_addrlen nd) r]; split;
           [reflexivity | exact Hone]).
    destruct (IH (ai_next nd) w1) as (post & -> & Hpost).
    exists (EvConnect sock (ai_addr nd) (ai_addrlen nd) r :: post). split.
    + subst w1. simpl. now rewrite <- app_assoc.
    + constructor; [simpl; tauto | exact Hpost].
Qed.

(** Socket creation fails: the result carries what [socket] returned. *)
Lemma tcp_open_socket_failure w q raddr r e rest :
  heap w !! q = Some raddr -> answers w = (r, e) :: rest -> r < 0 ->
  _zn_tcp_open (Ptr q) w
  = Ret (_z_res_t_ERR r)
        {| heap := heap w; fds := fds w; errno := e;
           trace := trace w ++ [EvSocket (ai_family raddr) (ai_socktype raddr)
                                         (ai_protocol raddr) r];
           answers := rest; resolv := resolv w |}.
Proof.
  intros Hq Hans Hr. destruct w as [h f e0 t ans rs]; simpl in *. subst ans.
  unfold _zn_tcp_open. os_simpl. rewrite Hq. os_simpl.
  destruct (Z.ltb_spec r 0) as [_|?]; [reflexivity | lia].
Qed.

(** [SO_KEEPALIVE] cannot be set: [close] is called on the [errno] value. *)
Lemma tcp_open_keepalive_failure w q raddr sock e0 r1 e1 rest :
  heap w !! q = Some raddr -> answers w = (sock, e0) :: (r1, e1) :: rest ->
  0 <= sock -> r1 < 0 ->
  _zn_tcp_open (Ptr q) w
  = Ret (_z_res_t_ERR e1)
        {| heap := heap w; fds := ({[sock]} ∪ fds w) ∖ {[e1]};
           errno := if bool_decide (e1 ∈ {[sock]} ∪ fds w) then e1 else EBADF;
           trace := trace w ++ [EvSocket (ai_family raddr) (ai_socktype raddr)
                                         (ai_protocol raddr) sock;
                                EvSetsockopt sock (SO_KEEPALIVE 1) r1;
                                EvClose e1];
           answers := rest; resolv := resolv w |}.
Proof.
  intros Hq Hans Hsock Hr1. destruct w as [h f e00 t ans rs]; simpl in *. subst ans.
  unfold _zn_tcp_open. os_simpl. rewrite Hq. os_simpl.
  destruct (Z.ltb_spec sock 0) as [?|_]; [lia|]. os_simpl.
  destruct (Z.ltb_spec r1 0) as [_|?]; [|lia]. os_simpl.
  now rewrite <- !app_assoc.
Qed.

(** [SO_LINGER] cannot be set: [close] is called on the [errno] value. *)
Lemma tcp_open_linger_failure w q raddr sock e0 r1 e1 r2 e2 rest :
  heap w !! q = Some raddr ->
  answers w = (sock, e0) :: (r1, e1) :: (r2, e2) :: rest ->
  0 <= sock -> 0 <= r1 -> r2 < 0 ->
  _zn_tcp_open (Ptr q) w
  = Ret (_z_res_t_ERR e2)
        {| heap := heap w; fds := ({[sock]} ∪ fds w) ∖ {[e2]};
           errno := if bool_decide (e2 ∈ {[sock]} ∪ fds w) then e2 else EBADF;
           trace := trace w ++ [EvSocket (ai_family raddr) (ai_socktype raddr)
                                         (ai_protocol raddr) sock;
                                EvSetsockopt sock (SO_KEEPALIVE 1) r1;
                                EvSetsockopt sock (SO_LINGER 1 (ZN_TRANSPORT_LEASE ÷ 1000)) r2;
                                EvClose e2];
           answers := rest; resolv := resolv w |}.
Proof.
  intros Hq Hans Hsock Hr1 Hr2. destruct w as [h f e00 t ans rs]; simpl in *. subst ans.
  unfold _zn_tcp_open. os_simpl. rewrite Hq. os_simpl.
  destruct (Z.ltb_spec sock 0) as [?|_]; [lia|]. os_simpl.
  destruct (Z.ltb_spec r1 0) as [?|_]; [lia|]. os_simpl.
  destruct (Z.ltb_spec r2 0) as [_|?]; [|lia]. os_simpl.
  now rewrite <- !app_assoc.
Qed.

(** C9: once the socket exists and keep-alive is set, [_zn_tcp_open] sets
    [SO_LINGER] on it exactly once, switched on ([l_onoff] = 1) and with a
    duration of the lease in milliseconds divided by 1000 and rounded down to
    whole seconds. *)
Theorem tcp_open_linger_is_lease_in_whole_seconds
    w q raddr sock e0 r1 e1 r2 e2 rest :
  heap w !! q = Some raddr ->
  answers w = (sock, e0) :: (r1, e1) :: (r2, e2) :: rest ->
  0 <= sock -> 0 <= r1 -> 0 <= ZN_TRANSPORT_LEASE ->
  (exists post,
     trace (world_of (_zn_tcp_open (Ptr q) w))
     = trace w ++ [EvSocket (ai_family raddr) (ai_socktype raddr) (ai_protocol raddr) sock;
                   EvSetsockopt sock (SO_KEEPALIVE 1) r1;
                   EvSetsockopt sock (SO_LINGER 1 (ZN_TRANSPORT_LEASE / 1000)) r2] ++ post
     /\ Forall (fun ev => ~ sets_linger ev) post)
  /\ 1000 * (ZN_TRANSPORT_LEASE / 1000) <= ZN_TRANSPORT_LEASE
     < 1000 * (ZN_TRANSPORT_LEASE / 1000) + 1000.
Proof.
  intros Hq Hans Hsock Hr1 Hlease.
  split; [|pose proof (Z.mod_pos_bound ZN_TRANSPORT_LEASE 1000);
           pose proof (Z.div_mod ZN_TRANSPORT_LEASE 1000); lia].
  rewrite <- Z.quot_div_nonneg by lia.
  destruct (Z.ltb_spec r2 0) as [Hr2|Hr2].
  - erewrite tcp_open_linger_failure by eassumption. simpl.
    exists [EvClose e2]. split; [reflexivity|].
    constructor; [simpl; tauto | constructor].
  - destruct w as [h f e00 t ans rs]; simpl in *. subst ans.
    unfold _zn_tcp_open. os_simpl. rewrite Hq. os_simpl.
    destruct (Z.ltb_spec sock 0) as [?|_]; [lia|]. os_simpl.
    destruct (Z.ltb_spec r1 0) as [?|_]; [lia|]. os_simpl.
    destruct (Z.ltb_spec r2 0) as [?|_]; [lia|].
    rewrite <- !app_assoc. cbn [app].
    destruct ZENOH_MACOS.
    + destruct rest as [|[r3 e3] rest].
      * exists []. split; [reflexivity | constructor].
      * os_simpl. unfold _zn_tcp_open_fallback.
        match goal with |- context [_zn_tcp_open_loop ?fu ?s ?it ?w1] =>
          destruct (tcp_open_loop_trace fu s it w1) as (post & -> & Hpost) end.
        exists (EvSetsockopt sock SO_NOSIGPIPE r3 :: post). split.
        -- simpl. now rewrite <- !app_assoc.
        -- constructor; [simpl; tauto | exact Hpost].
    + os_simpl. unfold _zn_tcp_open_fallback.
      match goal with |- context [_zn_tcp_open_loop ?fu ?s ?it ?w1] =>
        destruct (tcp_open_loop_trace fu s it w1) as (post & -> & Hpost) end.
      exists post. split; [simpl; now rewrite <- app_assoc | exact Hpost].
Qed.

End OpenProofs.

(** ** The resolver *)

Lemma alloc_chain_cons h a l :
  alloc_chain h (a :: l)
  = (Ptr (fresh (dom (alloc_chain h l).2)),
     <[fresh (dom (alloc_chain h l).2) := relink a (alloc_chain h l).1]> (alloc_chain h l).2).
Proof. simpl. now destruct (alloc_chain h l). Qed.

Lemma fresh_not_live (h : gmap positive addrinfo) : h !! fresh (dom h) = None.
Proof. apply not_elem_of_dom. apply is_fresh. Qed.

Lemma alloc_chain_keeps h l k :
  (alloc_chain h l).2 !! k = None -> h !! k = None.
Proof.
  revert k. induction l as [|a l IH]; intros k; [trivial|].
  rewrite alloc_chain_cons. cbn [snd]. intros Hk.
  apply lookup_insert_None in Hk as [Hk _]. now apply IH.
Qed.

Lemma alloc_chain_size h l :
  size (alloc_chain h l).2 = (size h + length l)%nat.
Proof.
  induction l as [|a l IH]; [simpl; lia|].
  rewrite alloc_chain_cons. cbn [snd length].
  rewrite map_size_insert_None by apply fresh_not_live. lia.
Qed.

(** Freeing a list leaves the nodes outside it alone. *)
Lemma free_chain_frame fuel : forall p h h0 k v,
  free_chain fuel p h = Some h0 -> h !! k = None ->
  free_chain fuel p (<[k := v]> h) = Some (<[k := v]> h0).
Proof.
  induction fuel as [|fuel IH]; intros p h h0 k v Hfree Hk; destruct p as [|q]; simpl in *.
  - congruence.
  - discriminate.
  - congruence.
  - destruct (h !! q) as [nd|] eqn:Hq; [|discriminate].
    assert (k <> q) by congruence.
    rewrite lookup_insert_ne, Hq by assumption.
    rewrite delete_insert_ne by congruence.
    apply IH; [exact Hfree|]. now rewrite lookup_delete_ne.
Qed.

(** Freeing what [getaddrinfo] allocated gives back the heap there was. *)
Lemma alloc_then_free l : forall h fuel,
  (length l <= fuel)%nat ->
  free_chain fuel (alloc_chain h l).1 (alloc_chain h l).2 = Some h.
Proof.
  induction l as [|a l IH]; intros h fuel Hfuel.
  - destruct fuel; reflexivity.
  - rewrite alloc_chain_cons. cbn [fst snd]. destruct fuel as [|fuel]; [simpl in Hfuel; lia|].
    cbn [free_chain]. rewrite lookup_insert_eq. cbn [ai_next relink].
    rewrite delete_insert_eq, delete_id by apply fresh_not_live.
    apply IH. simpl in Hfuel. lia.
Qed.

Lemma chain_at_live_node h q l :
  chain h (Ptr q) l -> exists a l', l = a :: l' /\ h !! q = Some a.
Proof.
  destruct l as [|a l]; simpl; [discriminate|].
  intros (q' & [= <-] & Hq & _). eauto.
Qed.

(** [_zn_create_tcp_endpoint] and [_zn_create_udp_endpoint] when resolution
    succeeds: of the nodes allocated only the first is still live. *)
Lemma create_tcp_endpoint_success s port h f e t ans a l rs :
  _zn_create_tcp_endpoint s port (OS h f e t ans (GaiOk a l :: rs))
  = Ret (Ptr (fresh (dom (alloc_chain h l).2)))
        {| heap := <[fresh (dom (alloc_chain h l).2) := relink a (alloc_chain h l).1]> h;
           fds := f; errno := e;
           trace := t ++ [EvGetaddrinfo (Some s) port tcp_hints 0;
                          EvFreeaddrinfo (alloc_chain h l).1];
           answers := ans; resolv := rs |}.
Proof.
  unfold _zn_create_tcp_endpoint. rewrite bind_run.
  unfold getaddrinfo. cbn [resolv heap]. rewrite alloc_chain_cons.
  cbn [negb Z.eqb]. os_simpl. rewrite lookup_insert_eq. os_simpl.
  unfold freeaddrinfo. cbn [heap ai_next relink].
  erewrite free_chain_frame;
    [| apply alloc_then_free | apply fresh_not_live].
  - cbn [fds errno trace answers resolv]. rewrite ret_run, <- app_assoc. reflexivity.
  - rewrite map_size_insert_None, alloc_chain_size by apply fresh_not_live. lia.
Qed.

Lemma create_udp_endpoint_success s port h f e t ans a l rs :
  _zn_create_udp_endpoint s port (OS h f e t ans (GaiOk a l :: rs))
  = Ret (Ptr (fresh (dom (alloc_chain h l).2)))
        {| heap := <[fresh (dom (alloc_chain h l).2) := relink a (alloc_chain h l).1]> h;
           fds := f; errno := e;
           trace := t ++ [EvGetaddrinfo (Some s) port udp_hints 0;
                          EvFreeaddrinfo (alloc_chain h l).1];
           answers := ans; resolv := rs |}.
Proof.
  unfold _zn_create_udp_endpoint. rewrite bind_run.
  unfold getaddrinfo. cbn [resolv heap]. rewrite alloc_chain_cons.
  cbn [Z.ltb Z.compare]. os_simpl. rewrite lookup_insert_eq. os_simpl.
  unfold freeaddrinfo. cbn [heap ai_next relink].
  erewrite free_chain_frame;
    [| apply alloc_then_free | apply fresh_not_live].
  - cbn [fds errno trace answers resolv]. rewrite ret_run, <- app_assoc. reflexivity.
  - rewrite map_size_insert_None, alloc_chain_size by apply fresh_not_live. lia.
Qed.

(** Resolution fails. *)
Lemma create_tcp_endpoint_failure s port h f e t ans rc rs :
  rc <> 0 ->
  _zn_create_tcp_endpoint s port (OS h f e t ans (GaiErr rc :: rs))
  = Ret NULL (OS h f e (t ++ [EvGetaddrinfo (Some s) port tcp_hints rc]) ans rs).
Proof.
  intros Hrc. unfold _zn_create_tcp_endpoint. rewrite bind_run.
  unfold getaddrinfo. cbn [resolv heap fds errno trace answers].
  destruct (Z.eqb_spec rc 0) as [?|_]; [contradiction | reflexivity].
Qed.

Lemma create_udp_endpoint_failure_negative s port h f e t ans rc rs :
  rc < 0 ->
  _zn_create_udp_endpoint s port (OS h f e t ans (GaiErr rc :: rs))
  = Ret NULL (OS h f e (t ++ [EvGetaddrinfo (Some s) port udp_hints rc]) ans rs).
Proof.
  intros Hrc. unfold _zn_create_udp_endpoint. rewrite bind_run.
  unfold getaddrinfo. cbn [resolv heap fds errno trace answers].
  destruct (Z.ltb_spec rc 0) as [_|?]; [reflexivity | lia].
Qed.

Lemma create_udp_endpoint_failure_positive s port h f e t ans rc rs :
  0 < rc ->
  _zn_create_udp_endpoint s port (OS h f e t ans (GaiErr rc :: rs))
  = Fault (OS h f e (t ++ [EvGetaddrinfo (Some s) port udp_hints rc]) ans rs).
Proof.
  intros Hrc. unfold _zn_create_udp_endpoint. rewrite bind_run.
  unfold getaddrinfo. cbn [resolv heap fds errno trace answers].
  destruct (Z.ltb_spec rc 0) as [?|_]; [lia | reflexivity].
Qed.

(** ** [_zn_udp_open] *)

Section UdpProofs.
Context `{Platform}.

Lemma udp_open_resolution_failure tout h f e0 t ans q raddr rc rs :
  h !! q = Some raddr -> rc <> 0 ->
  _zn_udp_open (Ptr q) tout (OS h f e0 t ans (GaiErr rc :: rs))
  = Ret (_z_res_t_ERR _zn_err_t_INVALID_LOCATOR)
        (OS h f e0 (t ++ [EvGetaddrinfo None "0" (udp_local_hints raddr) rc]) ans rs).
Proof.
  intros Hq Hrc. unfold _zn_udp_open. os_simpl. rewrite Hq. rewrite bind_run.
  unfold getaddrinfo. cbn [resolv heap fds errno trace answers].
  destruct (Z.eqb_spec rc 0) as [?|_]; [contradiction | reflexivity].
Qed.

(** Socket creation fails: the result carries what [socket] returned, and
    the local address list stays allocated. *)
Lemma udp_open_socket_failure tout h f e0 t q raddr l ls rs r e rest :
  h !! q = Some raddr -> r < 0 ->
  _zn_udp_open (Ptr q) tout (OS h f e0 t ((r, e) :: rest) (GaiOk l ls :: rs))
  = Ret (_z_res_t_ERR r)
        {| heap := (alloc_chain h (l :: ls)).2; fds := f; errno := e;
           trace := t ++ [EvGetaddrinfo None "0" (udp_local_hints raddr) 0;
                          EvSocket (ai_family l) (ai_socktype l) (ai_protocol l) r];
           answers := rest; resolv := rs |}.
Proof.
  intros Hq Hr. unfold _zn_udp_open. os_simpl. rewrite Hq. rewrite bind_run.
  unfold getaddrinfo. cbn [resolv heap]. rewrite alloc_chain_cons.
  cbn [negb Z.eqb]. os_simpl. rewrite lookup_insert_eq. os_simpl.
  destruct (Z.ltb_spec r 0) as [_|?]; [|lia].
  rewrite ret_run, <- app_assoc. reflexivity.
Qed.



End UdpProofs.

(** * What the exact-length reads guarantee *)

Lemma delivered_app xs ys : delivered (xs ++ ys) = delivered xs + delivered ys.
Proof. induction xs as [|[bs|r] xs IH]; simpl; lia. Qed.

Lemma delivered_data (frags : list (list byte)) :
  delivered (map RecvData frags) = Z.of_nat (length (concat frags)).
Proof.
  induction frags as [|f frags IH]; simpl; [reflexivity|].
  rewrite length_app, IH. lia.
Qed.

Lemma data_are_data (frags : list (list byte)) : Forall is_data (map RecvData frags).
Proof. induction frags; simpl; constructor; [exact I | assumption]. Qed.

(** C10, for a requested length that an [int] can hold: a call of
    [read_exact] (TCP or UDP) that returns gives either the negative value of
    the first failing read, all reads before it having succeeded, or exactly
    the requested length, never a positive count below it; asked for zero
    bytes it still makes one read, and returns zero when that read does not
    fail. *)
Theorem read_exact_returns_error_or_length sock ptr len m inc :
  0 <= len <= INT_MAX -> Forall wf_answer inc ->
  (forall v m' rest,
     _zn_tcp_read_exact sock ptr len m inc = Returned v m' rest \/
     _zn_udp_read_exact sock ptr len m inc = Returned v m' rest ->
     (v = len \/
      (v < 0 /\ exists pre, inc = pre ++ RecvErr v :: rest /\ Forall is_data pre))
     /\ ~ (0 < v < len))
  /\ (len = 0 ->
      match inc with
      | [] =>
          _zn_tcp_read_exact sock ptr len m inc = InRead ptr 0 m /\
          _zn_udp_read_exact sock ptr len m inc = InRead ptr 0 m
      | a :: inc' =>
          let v := match a with RecvData _ => 0 | RecvErr r => r end in
          _zn_tcp_read_exact sock ptr len m inc = Returned v m inc' /\
          _zn_udp_read_exact sock ptr len m inc = Returned v m inc'
      end).
Proof.
  intros Hlen Hwf. split.
  - intros v m' rest Hrun.
    assert (Htcp : _zn_tcp_read_exact sock ptr len m inc = Returned v m' rest)
      by (destruct Hrun as [Hrun|Hrun]; [|rewrite udp_read_exact_is_tcp in Hrun]; exact Hrun).
    unfold _zn_tcp_read_exact in Htcp.
    rewrite (to_int_id len) in Htcp by (unfold INT_MIN; lia).
    apply (tcp_loop_result sock len inc Hlen Hwf) in Htcp; [|lia].
    split; [exact Htcp|]. destruct Htcp as [->|[Hneg _]]; lia.
  - intros ->. destruct inc as [|a inc'].
    + split; reflexivity.
    + inversion Hwf as [|? ? Ha _]; subst.
      cbv zeta. split; [|etransitivity; [apply udp_read_exact_is_tcp|]];
        apply tcp_read_exact_zero; exact Ha.
Qed.

Lemma read_exact_returns_error_or_length_witness :
  (forall v m' rest,
     _zn_tcp_read_exact 3 4096 2 ∅ [RecvData ["a"%byte]; RecvErr (-1)]
     = Returned v m' rest \/
     _zn_udp_read_exact 3 4096 2 ∅ [RecvData ["a"%byte]; RecvErr (-1)]
     = Returned v m' rest ->
     (v = 2 \/
      (v < 0 /\ exists pre,
          [RecvData ["a"%byte]; RecvErr (-1)] = pre ++ RecvErr v :: rest
          /\ Forall is_data pre))
     /\ ~ (0 < v < 2))
  /\ _zn_tcp_read_exact 3 4096 2 ∅ [RecvData ["a"%byte]; RecvErr (-1)]
     = Returned (-1) (<[4096 := "a"%byte]> ∅) [].
Proof.
  split; [|reflexivity].
  exact (proj1 (read_exact_returns_error_or_length 3 4096 2 ∅
                  [RecvData ["a"%byte]; RecvErr (-1)]
                  ltac:(unfold INT_MAX; lia)
                  ltac:(repeat constructor; unfold INT_MIN; simpl; lia))).
Defined.

(** C10 as it is stated, for every call that returns, fails beyond the
    range of [int]: asked for 2^32 + 1 bytes, [int n = len] makes the count 1,
    one read of one byte ends the loop, and [return len] gives 1, a positive
    count below the requested length. *)
Lemma read_exact_truncates_length_beyond_int :
  _zn_tcp_read_exact 3 4096 (2 ^ 32 + 1) ∅ [RecvData ["a"%byte]]
  = Returned 1 (<[4096 := "a"%byte]> ∅) []
  /\ _zn_udp_read_exact 3 4096 (2 ^ 32 + 1) ∅ [RecvData ["a"%byte]]
     = Returned 1 (<[4096 := "a"%byte]> ∅) []
  /\ 0 < 1 < 2 ^ 32 + 1
  /\ ~ (1 = 2 ^ 32 + 1 \/ 1 < 0).
Proof.
  split; [reflexivity|]. split; [reflexivity|]. split; [lia|].
  intros [Heq|Hneg]; [discriminate Heq | lia].
Qed.

(** C3, at three fragments of one byte: the call returns 3 and raises no
    error, but the third byte is stored one past the end of the buffer and
    the buffer's third byte is left as it was. *)
Theorem read_exact_misplaces_third_fragment sock ptr m a b c :
  let m' := <[ptr + 1 + 2 := c]> (<[ptr + 1 := b]> (<[ptr := a]> m)) in
  _zn_tcp_read_exact sock ptr 3 m [RecvData [a]; RecvData [b]; RecvData [c]]
  = Returned 3 m' []
  /\ _zn_udp_read_exact sock ptr 3 m [RecvData [a]; RecvData [b]; RecvData [c]]
     = Returned 3 m' []
  /\ load_bytes m' ptr 3 = [Some a; Some b; m !! (ptr + 2)]
  /\ m' !! (ptr + 3) = Some c.
Proof.
  intros m'. split; [reflexivity|]. split; [reflexivity|]. subst m'.
  unfold load_bytes. cbn [seq map Z.of_nat Pos.of_succ_nat Pos.succ].
  rewrite Z.add_0_r. split.
  - f_equal; [|f_equal; [|f_equal]].
    + rewrite !lookup_insert_ne by lia. apply lookup_insert_eq.
    + rewrite lookup_insert_ne by lia. apply lookup_insert_eq.
    + now rewrite !lookup_insert_ne by lia.
  - replace (ptr + 3) with (ptr + 1 + 2) by lia. apply lookup_insert_eq.
Qed.

(** Fragments of positive size that add up to the requested length make
    the call return that length, wherever their bytes end up. *)
Lemma read_exact_fragments_return sock ptr len m rest (frags : list (list byte)) :
  0 < len <= INT_MAX -> Forall (fun f => f <> []) frags ->
  Z.of_nat (length (concat frags)) = len ->
  exists m', _zn_tcp_read_exact sock ptr len m (map RecvData frags ++ rest)
             = Returned len m' rest.
Proof.
  intros Hlen Hpos Hsum. unfold _zn_tcp_read_exact.
  rewrite (to_int_id len) by (unfold INT_MIN; lia).
  apply tcp_loop_fragments; try assumption; lia.
Qed.

(** C4: the peer closes after fewer than [len] bytes have arrived, so every
    later read returns zero; however many such reads are made, the call has
    not returned: it is in yet another read, and no failure is reported. *)
Theorem read_exact_never_fails_on_peer_close sock ptr len m
    (frags : list (list byte)) k :
  0 <= len <= INT_MAX -> Z.of_nat (length (concat frags)) < len ->
  exists ptr' m',
    _zn_tcp_read_exact sock ptr len m (map RecvData frags ++ repeat (RecvData []) k)
    = InRead ptr' (len - Z.of_nat (length (concat frags))) m'.
Proof.
  intros Hlen Hshort. unfold _zn_tcp_read_exact.
  rewrite (to_int_id len) by (unfold INT_MIN; lia).
  assert (Hdel : delivered (map RecvData frags ++ repeat (RecvData []) k)
                 = Z.of_nat (length (concat frags)))
    by (rewrite delivered_app, delivered_data, delivered_zero_reads; lia).
  rewrite <- Hdel. apply tcp_loop_short; [exact Hlen | | lia | lia].
  apply Forall_app. split; [apply data_are_data | apply zero_reads_are_data].
Qed.

Lemma read_exact_never_fails_on_peer_close_witness :
  exists ptr' m',
    _zn_tcp_read_exact 3 4096 2 ∅ (map RecvData [["a"%byte]] ++ repeat (RecvData []) 5)
    = InRead ptr' (2 - Z.of_nat (length (concat [["a"%byte]]))) m'.
Proof.
  apply (read_exact_never_fails_on_peer_close 3 4096 2 ∅ [["a"%byte]] 5).
  - unfold INT_MAX. lia.
  - simpl. lia.
Defined.

(** C5, the read loop: when every read returns zero bytes the loop never
    reaches a return; after any number [k] of reads it is in the next one,
    with the whole length still to come. *)
Theorem read_exact_spins_on_zero_byte_reads sock ptr len m k :
  0 < len <= INT_MAX ->
  _zn_tcp_read_exact sock ptr len m (repeat (RecvData []) k) = InRead ptr len m
  /\ _zn_udp_read_exact sock ptr len m (repeat (RecvData []) k) = InRead ptr len m.
Proof.
  intros Hlen.
  assert (Htcp : _zn_tcp_read_exact sock ptr len m (repeat (RecvData []) k)
                 = InRead ptr len m).
  { unfold _zn_tcp_read_exact. rewrite (to_int_id len) by (unfold INT_MIN; lia).
    rewrite tcp_loop_zero_reads by lia. f_equal. lia. }
  split; [|etransitivity; [apply udp_read_exact_is_tcp|]]; exact Htcp.
Qed.

Lemma read_exact_spins_on_zero_byte_reads_witness :
  _zn_tcp_read_exact 3 4096 1 ∅ (repeat (RecvData []) 7) = InRead 4096 1 ∅
  /\ _zn_udp_read_exact 3 4096 1 ∅ (repeat (RecvData []) 7) = InRead 4096 1 ∅.
Proof.
  apply (read_exact_spins_on_zero_byte_reads 3 4096 1 ∅ 7).
  unfold INT_MAX. lia.
Defined.

(** Reads that each deliver at least one byte, or fail, end the call
    within [max 1 len] of them. *)
Lemma read_exact_returns_on_progress sock ptr len m inc :
  0 <= len <= INT_MAX ->
  Forall (fun a => wf_answer a /\ (is_data a -> delivers a)) inc ->
  (1 <= length inc)%nat -> len <= Z.of_nat (length inc) ->
  exists v m' rest, _zn_tcp_read_exact sock ptr len m inc = Returned v m' rest.
Proof.
  intros Hlen Hall H1 Hfuel. unfold _zn_tcp_read_exact.
  rewrite (to_int_id len) by (unfold INT_MIN; lia).
  apply tcp_loop_progress; try assumption; lia.
Qed.

(** * What [_zn_tcp_open] guarantees *)

Lemma connect_events_no_close sock fd cands rets :
  EvClose fd ∉ connect_events sock cands rets.
Proof.
  unfold connect_events. revert rets.
  induction cands as [|a cands IH]; intros [|r rets]; simpl;
    try apply not_elem_of_nil.
  intros Hin. apply elem_of_cons in Hin as [Heq|Hin]; [discriminate|].
  now apply IH in Hin.
Qed.

Section OpenClaims.
Context `{Platform}.

(** The fallback loop returns once it has an answer for every candidate. *)
Lemma tcp_open_fallback_returns sock cands : forall it w fuel,
  chain (heap w) it cands -> cands <> [] ->
  (length cands <= length (answers w))%nat -> (length cands <= fuel)%nat ->
  exists r w', _zn_tcp_open_loop fuel sock it w = Ret r w'.
Proof.
  induction cands as [|a cands IH]; intros it w fuel Hch Hne Hans Hfuel; [congruence|].
  destruct Hch as (q & -> & Hq & Hnext).
  destruct fuel as [|fuel]; [simpl in Hfuel; lia|].
  destruct w as [h f e0 t ans rs]; simpl in *.
  destruct ans as [|[r e] ans]; [simpl in Hans; lia|].
  os_simpl. rewrite Hq. os_simpl.
  destruct (r <? 0); [|eauto].
  destruct (decide (ai_next a = NULL)) as [Hnull|Hnn]; [eauto|].
  apply IH; simpl in *; try lia; [exact Hnext|].
  intros ->. simpl in Hnext. contradiction.
Qed.

Lemma tcp_open_fallback_terminates sock cands it w :
  chain (heap w) it cands -> cands <> [] ->
  (length cands <= length (answers w))%nat ->
  exists r w', _zn_tcp_open_fallback sock it w = Ret r w'.
Proof.
  intros Hch Hne Hans. unfold _zn_tcp_open_fallback.
  eapply tcp_open_fallback_returns; eauto.
Qed.

(** C1: with the socket set up, [_zn_tcp_open] makes one [connect] call on
    each candidate in list order; the failures on [pre] are passed over, and
    the call on the next candidate [a] decides: when it succeeds the result is
    [Ok] with the socket and no later candidate is tried, and when it fails
    and [a] is the last one the result is [Err] with the connection-failure
    code. *)
Theorem tcp_open_tries_candidates_in_order
    w arg pre a post sock e0 r1 e1 r2 e2 nosig fails r e rest :
  chain (heap w) arg (pre ++ a :: post) ->
  0 <= sock -> 0 <= r1 -> 0 <= r2 ->
  length nosig = (if ZENOH_MACOS then 1 else 0)%nat ->
  length fails = length pre -> Forall (fun x => x.1 < 0) fails ->
  answers w = (sock, e0) :: (r1, e1) :: (r2, e2) :: nosig ++ fails ++ (r, e) :: rest ->
  0 <= r \/ post = [] ->
  exists w',
    _zn_tcp_open arg w
    = Ret (if r <? 0 then _z_res_t_ERR _zn_err_t_TX_CONNECTION else _z_res_t_OK sock) w'
    /\ trace w' = trace w ++ tcp_setup_events (hd a pre) sock r1 r2 nosig
                          ++ connect_events sock (pre ++ [a]) (fails ++ [(r, e)])
    /\ answers w' = rest.
Proof.
  intros Hch Hsock Hr1 Hr2 Hnosig Hlen Hneg Hans Hcase.
  eexists. split.
  - exact (tcp_open_run w arg pre a post sock e0 r1 e1 r2 e2 nosig fails r e rest
             Hch Hsock Hr1 Hr2 Hnosig Hlen Hneg Hans Hcase).
  - split; reflexivity.
Qed.

(** C6, the connect path: when the [connect] call on the last candidate
    fails, [_zn_tcp_open] returns [Err] with the socket still among the open
    descriptors, and it has made no [close] call. *)
Theorem tcp_open_last_connect_failure_leaks_socket
    w arg pre a sock e0 r1 e1 r2 e2 nosig fails r e rest :
  chain (heap w) arg (pre ++ [a]) ->
  0 <= sock -> 0 <= r1 -> 0 <= r2 ->
  length nosig = (if ZENOH_MACOS then 1 else 0)%nat ->
  length fails = length pre -> Forall (fun x => x.1 < 0) fails ->
  answers w = (sock, e0) :: (r1, e1) :: (r2, e2) :: nosig ++ fails ++ (r, e) :: rest ->
  r < 0 ->
  exists w' post,
    _zn_tcp_open arg w = Ret (_z_res_t_ERR _zn_err_t_TX_CONNECTION) w'
    /\ sock ∈ fds w'
    /\ trace w' = trace w ++ post /\ EvClose sock ∉ post.
Proof.
  intros Hch Hsock Hr1 Hr2 Hnosig Hlen Hneg Hans Hr.
  eexists. eexists. split.
  { rewrite (tcp_open_run w arg pre a [] sock e0 r1 e1 r2 e2 nosig fails r e rest
               Hch Hsock Hr1 Hr2 Hnosig Hlen Hneg Hans (or_intror eq_refl)).
    destruct (Z.ltb_spec r 0) as [_|?]; [reflexivity | lia]. }
  cbn [fds trace]. split; [set_solver|]. split; [reflexivity|].
  intros Hin. apply elem_of_app in Hin as [Hin|Hin].
  - unfold tcp_setup_events in Hin. apply elem_of_app in Hin as [Hin|Hin].
    + repeat (apply elem_of_cons in Hin as [Heq|Hin]; [discriminate|]).
      now apply not_elem_of_nil in Hin.
    + apply list_elem_of_fmap in Hin as (x & Heq & _). discriminate.
  - now apply connect_events_no_close in Hin.
Qed.

End OpenClaims.

Lemma tcp_open_tries_candidates_in_order_witness :
  exists w',
    @_zn_tcp_open (example_platform false) (Ptr 2)
      (example_world [(3, 0); (0, 0); (0, 0); (-1, 111); (0, 0)] [])
    = Ret (_z_res_t_OK 3) w'
    /\ trace w' = [EvSocket 10 1 6 3; EvSetsockopt 3 (SO_KEEPALIVE 1) 0;
                   EvSetsockopt 3 (SO_LINGER 1 10) 0;
                   EvConnect 3 6001 28 (-1); EvConnect 3 4001 16 0]
    /\ answers w' = [].
Proof.
  apply (@tcp_open_tries_candidates_in_order (example_platform false)
           (example_world [(3, 0); (0, 0); (0, 0); (-1, 111); (0, 0)] [])
           (Ptr 2) [relink addr6 (Ptr 1)] addr4 [] 3 0 0 0 0 0 [] [(-1, 111)] 0 0 []).
  - exists 2%positive. split; [reflexivity|]. split; [reflexivity|].
    exists 1%positive. split; [reflexivity|]. split; reflexivity.
  - lia.
  - lia.
  - lia.
  - reflexivity.
  - reflexivity.
  - repeat constructor.
  - reflexivity.
  - left. lia.
Defined.

Lemma tcp_open_last_connect_failure_leaks_socket_witness :
  exists w' post,
    @_zn_tcp_open (example_platform false) (Ptr 1)
      (single_world [(3, 0); (0, 0); (0, 0); (-1, 111)] [])
    = Ret (_z_res_t_ERR 1001) w'
    /\ 3 ∈ fds w'
    /\ trace w' = [] ++ post /\ EvClose 3 ∉ post.
Proof.
  apply (@tcp_open_last_connect_failure_leaks_socket (example_platform false)
           (single_world [(3, 0); (0, 0); (0, 0); (-1, 111)] [])
           (Ptr 1) [] addr4 3 0 0 0 0 0 [] [] (-1) 111 []).
  - exists 1%positive. split; [reflexivity|]. split; reflexivity.
  - lia.
  - lia.
  - lia.
  - reflexivity.
  - reflexivity.
  - constructor.
  - reflexivity.
  - lia.
Defined.

Lemma tcp_open_linger_is_lease_in_whole_seconds_witness :
  (exists post,
     trace (world_of (@_zn_tcp_open (example_platform false) (Ptr 1)
                        (single_world [(3, 0); (0, 0); (0, 0); (0, 0)] [])))
     = [] ++ [EvSocket 2 1 6 3; EvSetsockopt 3 (SO_KEEPALIVE 1) 0;
              EvSetsockopt 3 (SO_LINGER 1 (10000 / 1000)) 0] ++ post
     /\ Forall (fun ev => ~ sets_linger ev) post)
  /\ 1000 * (10000 / 1000) <= 10000 < 1000 * (10000 / 1000) + 1000.
Proof.
  apply (@tcp_open_linger_is_lease_in_whole_seconds (example_platform false)
           (single_world [(3, 0); (0, 0); (0, 0); (0, 0)] [])
           1%positive addr4 3 0 0 0 0 0 [(0, 0)]).
  - reflexivity.
  - reflexivity.
  - lia.
  - lia.
  - simpl. lia.
Defined.

(** * The endpoints and their use *)

(** C2, the TCP side: when a name resolves to two or more addresses,
    [_zn_create_tcp_endpoint] releases every node after the first before it
    returns; the first node is all that is live of the endpoint, its
    [ai_next] points at a released node, and no list of candidates is stored
    at the pointer it returns. *)
Theorem tcp_endpoint_keeps_only_first_address s port h f e t ans a b l rs :
  exists p nd q w',
    _zn_create_tcp_endpoint s port (OS h f e t ans (GaiOk a (b :: l) :: rs))
    = Ret (Ptr p) w'
    /\ heap w' = <[p := nd]> h
    /\ ai_addr nd = ai_addr a /\ ai_next nd = Ptr q /\ heap w' !! q = None
    /\ forall cands, ~ chain (heap w') (Ptr p) cands.
Proof.
  rewrite create_tcp_endpoint_success.
  set (p := fresh (dom (alloc_chain h (b :: l)).2)).
  set (q := fresh (dom (alloc_chain h l).2)).
  assert (Hnx : (alloc_chain h (b :: l)).1 = Ptr q)
    by (rewrite alloc_chain_cons; reflexivity).
  assert (Hpq : p <> q).
  { intros Heq. pose proof (fresh_not_live (alloc_chain h (b :: l)).2) as Hp.
    fold p in Hp. rewrite alloc_chain_cons in Hp. cbn [snd] in Hp. fold q in Hp.
    rewrite Heq, lookup_insert_eq in Hp. discriminate. }
  rewrite Hnx.
  assert (Hq : (<[p := relink a (Ptr q)]> h) !! q = None).
  { rewrite lookup_insert_ne by exact Hpq.
    apply (alloc_chain_keeps h l). apply fresh_not_live. }
  exists p, (relink a (Ptr q)), q. eexists.
  split; [reflexivity|]. cbn [heap].
  split; [reflexivity|]. split; [reflexivity|]. split; [reflexivity|].
  split; [exact Hq|].
  intros [|c cands]; cbn [chain]; [discriminate|].
  intros (p' & [= <-] & Hp & Hrest). rewrite lookup_insert_eq in Hp.
  injection Hp as Hc. subst c. cbn [ai_next relink] in Hrest.
  apply chain_at_live_node in Hrest as (c' & cs & _ & Hlive). congruence.
Qed.

(** The UDP resolver keeps the first node only, in the same way. *)
Lemma udp_endpoint_keeps_only_first_address s port h f e t ans a l rs :
  exists p nd w',
    _zn_create_udp_endpoint s port (OS h f e t ans (GaiOk a l :: rs)) = Ret (Ptr p) w'
    /\ heap w' = <[p := nd]> h /\ ai_addr nd = ai_addr a.
Proof.
  rewrite create_udp_endpoint_success. do 2 eexists. eexists.
  split; [reflexivity|]. split; reflexivity.
Qed.

Section EndpointUse.
Context `{Platform}.

(** [_zn_tcp_open] on an endpoint whose second node has been released: when
    the first [connect] fails, the loop reads the released node. *)
Lemma tcp_open_walks_released_node h f e00 t rs q nd q' sock e0 r1 e1 r2 e2 nosig r e rest :
  h !! q = Some nd -> ai_next nd = Ptr q' -> h !! q' = None ->
  0 <= sock -> 0 <= r1 -> 0 <= r2 ->
  length nosig = (if ZENOH_MACOS then 1 else 0)%nat -> r < 0 ->
  exists w',
    _zn_tcp_open (Ptr q)
      (OS h f e00 t ((sock, e0) :: (r1, e1) :: (r2, e2) :: nosig ++ (r, e) :: rest) rs)
    = Fault w'.
Proof.
  intros Hq Hnext Hq' Hsock Hr1 Hr2 Hnosig Hr.
  unfold _zn_tcp_open. os_simpl. rewrite Hq. os_simpl.
  destruct (Z.ltb_spec sock 0) as [?|_]; [lia|]. os_simpl.
  destruct (Z.ltb_spec r1 0) as [?|_]; [lia|]. os_simpl.
  destruct (Z.ltb_spec r2 0) as [?|_]; [lia|].
  destruct ZENOH_MACOS.
  - destruct nosig as [|[r3 e3] [|? ?]]; try discriminate. cbn [app]. os_simpl.
    unfold _zn_tcp_open_fallback. cbn [answers length _zn_tcp_open_loop].
    os_simpl. rewrite Hq. os_simpl.
    destruct (Z.ltb_spec r 0) as [_|?]; [|lia]. rewrite Hnext.
    destruct (decide (Ptr q' = NULL)) as [?|_]; [discriminate|].
    cbn [_zn_tcp_open_loop]. os_simpl. rewrite Hq'. eauto.
  - destruct nosig; try discriminate. cbn [app]. os_simpl.
    unfold _zn_tcp_open_fallback. cbn [answers length _zn_tcp_open_loop].
    os_simpl. rewrite Hq. os_simpl.
    destruct (Z.ltb_spec r 0) as [_|?]; [|lia]. rewrite Hnext.
    destruct (decide (Ptr q' = NULL)) as [?|_]; [discriminate|].
    cbn [_zn_tcp_open_loop]. os_simpl. rewrite Hq'. eauto.
Qed.

(** [_zn_udp_open] when every call succeeds: the local list is released. *)
Lemma udp_open_success tout h f e0 t q raddr l ls rs sock e r1 e1 r2 e2 rest :
  h !! q = Some raddr -> 0 <= sock -> r1 <> -1 -> r2 <> -1 ->
  exists w',
    _zn_udp_open (Ptr q) tout
      (OS h f e0 t ((sock, e) :: (r1, e1) :: (r2, e2) :: rest) (GaiOk l ls :: rs))
    = Ret (_z_res_t_OK sock) w'
    /\ heap w' = h /\ fds w' = {[sock]} ∪ f /\ answers w' = rest.
Proof.
  intros Hq Hsock Hr1 Hr2. unfold _zn_udp_open. os_simpl. rewrite Hq. rewrite bind_run.
  unfold getaddrinfo. cbn [resolv heap].
  pose proof (alloc_then_free (l :: ls) h (size (alloc_chain h (l :: ls)).2)) as Hfree.
  rewrite alloc_chain_size in Hfree. specialize (Hfree ltac:(lia)).
  rewrite <- alloc_chain_size in Hfree.
  destruct (alloc_chain h (l :: ls)) as [p h'] eqn:Halloc.
  rewrite alloc_chain_cons in Halloc. injection Halloc as <- <-.
  cbn [negb Z.eqb]. os_simpl. rewrite lookup_insert_eq. os_simpl.
  destruct (Z.ltb_spec sock 0) as [?|_]; [lia|]. os_simpl.
  destruct (Z.eqb_spec r1 (-1)) as [?|_]; [contradiction|]. os_simpl.
  destruct (Z.eqb_spec r2 (-1)) as [?|_]; [contradiction|]. rewrite bind_run.
  unfold freeaddrinfo. cbn [heap fst snd] in *. rewrite Hfree. rewrite ret_run.
  eexists. split; [reflexivity|]. cbn [heap fds answers].
  split; [reflexivity|]. split; [|reflexivity].
  destruct (r1 <? 0), (r2 <? 0); reflexivity.
Qed.

(** C7, at a failing [socket] call that returns -1 with [errno] set to [e]:
    the result of [_zn_tcp_open] and of [_zn_udp_open] is tagged [Err] and its
    payload is the -1 that [socket] returned, whatever [e] is; [e] is left in
    [errno]. *)
Theorem open_socket_failure_carries_return_value e rest rs :
  (exists w',
     _zn_tcp_open (Ptr 1) (single_world ((-1, e) :: rest) rs)
     = Ret (_z_res_t_ERR (-1)) w' /\ errno w' = e)
  /\ (exists w',
        _zn_udp_open (Ptr 1) 500 (single_world ((-1, e) :: rest) (GaiOk addr4 [] :: rs))
        = Ret (_z_res_t_ERR (-1)) w' /\ errno w' = e).
Proof.
  split.
  - eexists. split; [apply (tcp_open_socket_failure _ 1%positive addr4); [reflexivity..|lia]|].
    reflexivity.
  - eexists. split; [apply (udp_open_socket_failure _ _ _ _ _ 1%positive addr4); [reflexivity|lia]|].
    reflexivity.
Qed.

End EndpointUse.

(** C8, at a resolution that fails with the positive code 8: the TCP
    resolver returns [NULL]; the UDP resolver, which only tests for a negative
    code, goes on to read the result pointer that was never set. *)
Theorem udp_endpoint_misses_positive_resolver_codes s port h f e t ans rs :
  _zn_create_tcp_endpoint s port (OS h f e t ans (GaiErr 8 :: rs))
  = Ret NULL (OS h f e (t ++ [EvGetaddrinfo (Some s) port tcp_hints 8]) ans rs)
  /\ _zn_create_udp_endpoint s port (OS h f e t ans (GaiErr 8 :: rs))
     = Fault (OS h f e (t ++ [EvGetaddrinfo (Some s) port udp_hints 8]) ans rs).
Proof.
  split.
  - apply create_tcp_endpoint_failure. lia.
  - apply create_udp_endpoint_failure_positive. lia.
Qed.

(** * Further properties of the file *)

(** ** What [_zn_tcp_open] leaves alone *)

Lemma keeps_nodes_ret {A} (a : A) : keeps_nodes (mret a : M A).
Proof. intros w. split; reflexivity. Qed.

Lemma keeps_nodes_bind {A B} (c : M A) (k : A -> M B) :
  keeps_nodes c -> (forall a, keeps_nodes (k a)) -> keeps_nodes (c ≫= k).
Proof.
  intros Hc Hk w. rewrite bind_run. specialize (Hc w).
  destruct (c w) as [a w1|w1|w1]; simpl in Hc; [|exact Hc|exact Hc].
  destruct Hc as [Hc1 Hc2]. destruct (Hk a w1) as [Hh Hr]. split; congruence.
Qed.

Lemma keeps_nodes_int_call ev effect : keeps_nodes (int_call ev effect).
Proof.
  intros w. unfold int_call. destruct (answers w) as [|[r e] rest]; split; reflexivity.
Qed.

Lemma keeps_nodes_deref p : keeps_nodes (deref p).
Proof.
  intros w. unfold deref. destruct p as [|q]; [split; reflexivity|].
  destruct (heap w !! q); split; reflexivity.
Qed.

Lemma keeps_nodes_close fd : keeps_nodes (close fd).
Proof. intros w. split; reflexivity. Qed.

Lemma keeps_nodes_get_errno : keeps_nodes get_errno.
Proof. intros w. split; reflexivity. Qed.

Section KeepsNodes.
Context `{Platform}.

Lemma keeps_nodes_tcp_open_loop fuel sock : forall it,
  keeps_nodes (_zn_tcp_open_loop fuel sock it).
Proof.
  induction fuel as [|fuel IH]; intros it.
  - destruct it; [apply keeps_nodes_ret | intros w; split; reflexivity].
  - destruct it as [|q]; [apply keeps_nodes_ret|].
    cbn [_zn_tcp_open_loop].
    apply keeps_nodes_bind; [apply keeps_nodes_deref|]. intros nd.
    apply keeps_nodes_bind; [apply keeps_nodes_int_call|]. intros rc.
    destruct (rc <? 0); [|apply keeps_nodes_ret].
    destruct (decide (ai_next nd = NULL)); [apply keeps_nodes_ret | apply IH].
Qed.

Lemma keeps_nodes_tcp_open_fallback sock it :
  keeps_nodes (_zn_tcp_open_fallback sock it).
Proof. intros w. apply keeps_nodes_tcp_open_loop. Qed.

(** X1: whatever the system answers and however it ends, [_zn_tcp_open]
    neither releases nor allocates an address node and resolves no name: the
    endpoint it was given is still allocated, exactly as it was, afterwards. *)
Theorem tcp_open_leaves_endpoint_allocated arg w :
  heap (world_of (_zn_tcp_open arg w)) = heap w
  /\ resolv (world_of (_zn_tcp_open arg w)) = resolv w.
Proof.
  revert w. change (keeps_nodes (_zn_tcp_open arg)). unfold _zn_tcp_open.
  apply keeps_nodes_bind; [apply keeps_nodes_deref|]. intros raddr.
  apply keeps_nodes_bind; [apply keeps_nodes_int_call|]. intros sock.
  destruct (sock <? 0); [apply keeps_nodes_ret|].
  apply keeps_nodes_bind; [apply keeps_nodes_int_call|]. intros r1.
  assert (Hfail : keeps_nodes (e ← get_errno; _ ← close e; mret (_z_res_t_ERR e))).
  { apply keeps_nodes_bind; [apply keeps_nodes_get_errno|]. intros e.
    apply keeps_nodes_bind; [apply keeps_nodes_close|]. intros _.
    apply keeps_nodes_ret. }
  destruct (r1 <? 0); [exact Hfail|].
  apply keeps_nodes_bind; [apply keeps_nodes_int_call|]. intros r2.
  destruct (r2 <? 0); [exact Hfail|].
  apply keeps_nodes_bind.
  - destruct ZENOH_MACOS; [apply keeps_nodes_int_call | apply keeps_nodes_ret].
  - intros _. apply keeps_nodes_tcp_open_fallback.
Qed.

End KeepsNodes.

(** ** More of [_zn_tcp_open] *)

Lemma closed_again (f : gset Z) sock : sock ∉ f -> ({[sock]} ∪ f) ∖ {[sock]} = f.
Proof.
  intros Hnew. apply set_eq. intros x.
  rewrite elem_of_difference, elem_of_union, elem_of_singleton. split.
  - intros [[Hx|Hx] Hne]; [contradiction | exact Hx].
  - intros Hx. split; [now right | congruence].
Qed.

Lemma opened (f : gset Z) sock : sock ∈ {[sock]} ∪ f.
Proof. apply elem_of_union_l, elem_of_singleton. reflexivity. Qed.

Lemma still_open (f : gset Z) sock e : e <> sock -> sock ∈ ({[sock]} ∪ f) ∖ {[e]}.
Proof.
  intros Hne. apply elem_of_difference. split; [apply opened|].
  rewrite elem_of_singleton. congruence.
Qed.

Section TcpOpenMore.
Context `{Platform}.

(** X2: when [SO_KEEPALIVE] or [SO_LINGER] cannot be set, [_zn_tcp_open]
    returns [Err] with the [errno] of that call and makes no [connect] call:
    the answers still to come are left untouched.  Its one [close] call is on
    the [errno] value, which has overwritten the socket in [r.value], so the
    socket it had created is still open afterwards, unless the error number
    happens to equal the descriptor. *)
Theorem tcp_open_option_failure_closes_errno_value
    h f e00 t rs q raddr sock e0 r1 e1 r2 e2 rest :
  h !! q = Some raddr -> 0 <= sock ->
  (r1 < 0 -> e1 <> sock ->
   exists w',
     _zn_tcp_open (Ptr q) (OS h f e00 t ((sock, e0) :: (r1, e1) :: rest) rs)
     = Ret (_z_res_t_ERR e1) w'
     /\ sock ∈ fds w' /\ answers w' = rest
     /\ trace w' = t ++ [EvSocket (ai_family raddr) (ai_socktype raddr)
                           (ai_protocol raddr) sock;
                         EvSetsockopt sock (SO_KEEPALIVE 1) r1;
                         EvClose e1])
  /\ (0 <= r1 -> r2 < 0 -> e2 <> sock ->
      exists w',
        _zn_tcp_open (Ptr q)
          (OS h f e00 t ((sock, e0) :: (r1, e1) :: (r2, e2) :: rest) rs)
        = Ret (_z_res_t_ERR e2) w'
        /\ sock ∈ fds w' /\ answers w' = rest
        /\ trace w' = t ++ [EvSocket (ai_family raddr) (ai_socktype raddr)
                              (ai_protocol raddr) sock;
                            EvSetsockopt sock (SO_KEEPALIVE 1) r1;
                            EvSetsockopt sock (SO_LINGER 1 (ZN_TRANSPORT_LEASE ÷ 1000)) r2;
                            EvClose e2]).
Proof.
  intros Hq Hsock. split.
  - intros Hr1 Hne. eexists. split.
    + apply (tcp_open_keepalive_failure _ q raddr sock e0 r1 e1 rest);
        [exact Hq | reflexivity | exact Hsock | exact Hr1].
    + cbn [fds answers trace]. split; [now apply still_open|]. split; reflexivity.
  - intros Hr1 Hr2 Hne. eexists. split.
    + apply (tcp_open_linger_failure _ q raddr sock e0 r1 e1 r2 e2 rest);
        [exact Hq | reflexivity | exact Hsock | exact Hr1 | exact Hr2].
    + cbn [fds answers trace]. split; [now apply still_open|]. split; reflexivity.
Qed.

(** X3: on a macOS build a failure to set [SO_NOSIGPIPE] is ignored: the
    call is made once, after [SO_LINGER], and when it fails [_zn_tcp_open]
    still goes on to connect and returns [Ok] with the socket; the [errno] of
    the failed call is all that is left of it. *)
Theorem tcp_open_ignores_nosigpipe_failure
    w arg a post sock e0 r1 e1 r2 e2 r3 e3 r e rest :
  ZENOH_MACOS = true ->
  chain (heap w) arg (a :: post) ->
  0 <= sock -> 0 <= r1 -> 0 <= r2 -> r3 < 0 -> 0 <= r ->
  answers w = (sock, e0) :: (r1, e1) :: (r2, e2) :: (r3, e3) :: (r, e) :: rest ->
  exists w',
    _zn_tcp_open arg w = Ret (_z_res_t_OK sock) w'
    /\ errno w' = e3
    /\ sock ∈ fds w'
    /\ trace w' = trace w ++
         [EvSocket (ai_family a) (ai_socktype a) (ai_protocol a) sock;
          EvSetsockopt sock (SO_KEEPALIVE 1) r1;
          EvSetsockopt sock (SO_LINGER 1 (ZN_TRANSPORT_LEASE ÷ 1000)) r2;
          EvSetsockopt sock SO_NOSIGPIPE r3;
          EvConnect sock (ai_addr a) (ai_addrlen a) r].
Proof.
  intros Hmac Hch Hsock Hr1 Hr2 Hr3 Hr Hans.
  eexists. split.
  - rewrite (tcp_open_run w arg [] a post sock e0 r1 e1 r2 e2 [(r3, e3)] [] r e rest);
      [| exact Hch | exact Hsock | exact Hr1 | exact Hr2 | now rewrite Hmac
       | reflexivity | constructor | exact Hans | now left].
    destruct (Z.ltb_spec r 0) as [?|_]; [lia | reflexivity].
  - cbn [errno fds trace]. split.
    + unfold last_errno. cbn [app foldl fst snd].
      destruct (Z.ltb_spec r3 0) as [_|?]; [|lia].
      destruct (Z.ltb_spec r 0) as [?|_]; [lia | reflexivity].
    + split; [apply opened | reflexivity].
Qed.

(** X4: a name that resolves to a single address, resolved by
    [_zn_create_tcp_endpoint] and handed to [_zn_tcp_open]: the two compose
    without fault, one [connect] is made, to that address, and its answer
    decides between [Ok] with the socket and [Err] with the
    connection-failure code. *)
Theorem tcp_resolve_single_then_open
    s port h f e00 t rs a sock e0 r1 e1 r2 e2 nosig r e rest :
  0 <= sock -> 0 <= r1 -> 0 <= r2 ->
  length nosig = (if ZENOH_MACOS then 1 else 0)%nat ->
  exists w',
    (p ← _zn_create_tcp_endpoint s port; _zn_tcp_open p)
      (OS h f e00 t ((sock, e0) :: (r1, e1) :: (r2, e2) :: nosig ++ (r, e) :: rest)
          (GaiOk a [] :: rs))
    = Ret (if r <? 0 then _z_res_t_ERR _zn_err_t_TX_CONNECTION else _z_res_t_OK sock) w'
    /\ trace w' = t ++ [EvGetaddrinfo (Some s) port tcp_hints 0; EvFreeaddrinfo NULL]
                    ++ tcp_setup_events a sock r1 r2 nosig
                    ++ [EvConnect sock (ai_addr a) (ai_addrlen a) r]
    /\ answers w' = rest /\ resolv w' = rs.
Proof.
  intros Hsock Hr1 Hr2 Hnosig. eexists. split.
  - rewrite bind_run, create_tcp_endpoint_success. cbn [alloc_chain fst snd].
    apply (tcp_open_run _ _ [] (relink a NULL) [] sock e0 r1 e1 r2 e2 nosig [] r e rest);
      try assumption; try reflexivity; [|constructor|now right].
    cbn [app chain heap]. eexists. split; [reflexivity|].
    split; [apply lookup_insert_eq | reflexivity].
  - cbn [trace answers resolv]. split; [|split; reflexivity].
    rewrite <- !app_assoc. reflexivity.
Qed.

(** X5: a failed resolution handed on unchecked: [_zn_create_tcp_endpoint]
    returns [NULL] for every non-zero code, and [_zn_tcp_open] on [NULL]
    reads through it before it makes any call, so the composition is
    undefined behaviour with [getaddrinfo] the only call made; the same holds
    for the UDP pair when the code is negative, the only failures for which
    [_zn_create_udp_endpoint] returns [NULL]. *)
Theorem open_after_failed_resolution_faults
    s port tout h f e00 t ans rs rc_tcp rc_udp :
  rc_tcp <> 0 -> rc_udp < 0 ->
  (p ← _zn_create_tcp_endpoint s port; _zn_tcp_open p)
    (OS h f e00 t ans (GaiErr rc_tcp :: rs))
  = Fault (OS h f e00 (t ++ [EvGetaddrinfo (Some s) port tcp_hints rc_tcp]) ans rs)
  /\ (p ← _zn_create_udp_endpoint s port; _zn_udp_open p tout)
       (OS h f e00 t ans (GaiErr rc_udp :: rs))
     = Fault (OS h f e00 (t ++ [EvGetaddrinfo (Some s) port udp_hints rc_udp]) ans rs).
Proof.
  intros Htcp Hudp. split.
  - rewrite bind_run, create_tcp_endpoint_failure by exact Htcp. reflexivity.
  - rewrite bind_run, create_udp_endpoint_failure_negative by exact Hudp. reflexivity.
Qed.

End TcpOpenMore.

(** ** More of [_zn_udp_open] *)

Section UdpOpenMore.
Context `{Platform}.

Lemma udp_open_success_run tout h f e0 t q raddr l ls rs sock e r1 e1 r2 e2 rest :
  h !! q = Some raddr -> 0 <= sock -> r1 <> -1 -> r2 <> -1 ->
  _zn_udp_open (Ptr q) tout
    (OS h f e0 t ((sock, e) :: (r1, e1) :: (r2, e2) :: rest) (GaiOk l ls :: rs))
  = Ret (_z_res_t_OK sock)
        {| heap := h; fds := {[sock]} ∪ f;
           errno := last_errno e0 [(r1, e1); (r2, e2)];
           trace := t ++ [EvGetaddrinfo None "0" (udp_local_hints raddr) 0;
                          EvSocket (ai_family l) (ai_socktype l) (ai_protocol l) sock;
                          EvSetsockopt sock (SO_RCVTIMEO 0 tout) r1;
                          EvSetsockopt sock (SO_SNDTIMEO 0 tout) r2;
                          EvFreeaddrinfo (alloc_chain h (l :: ls)).1];
           answers := rest; resolv := rs |}.
Proof.
  intros Hq Hsock Hr1 Hr2. unfold _zn_udp_open. os_simpl. rewrite Hq. rewrite bind_run.
  unfold getaddrinfo. cbn [resolv heap].
  pose proof (alloc_then_free (l :: ls) h (size (alloc_chain h (l :: ls)).2)) as Hfree.
  rewrite alloc_chain_size in Hfree. specialize (Hfree ltac:(lia)).
  rewrite <- alloc_chain_size in Hfree.
  destruct (alloc_chain h (l :: ls)) as [p h'] eqn:Halloc.
  rewrite alloc_chain_cons in Halloc. injection Halloc as <- <-.
  cbn [negb Z.eqb]. os_simpl. rewrite lookup_insert_eq. os_simpl.
  destruct (Z.ltb_spec sock 0) as [?|_]; [lia|]. os_simpl.
  destruct (Z.eqb_spec r1 (-1)) as [?|_]; [contradiction|]. os_simpl.
  destruct (Z.eqb_spec r2 (-1)) as [?|_]; [contradiction|]. rewrite bind_run.
  unfold freeaddrinfo. cbn [heap fst snd] in *. rewrite Hfree. rewrite ret_run.
  cbn [fds errno trace answers resolv]. rewrite <- !app_assoc.
  unfold last_errno. cbn [foldl fst snd app ai_family ai_socktype ai_protocol relink].
  destruct (r1 <? 0), (r2 <? 0); reflexivity.
Qed.

(** X6: when the local resolution, the [socket] call and both time-out
    settings succeed, [_zn_udp_open] returns [Ok] with the socket, now open;
    it has asked for a passive local address of the remote endpoint's family,
    type and protocol on port "0", made the socket from the first local
    address, set the receive and the send time-out to 0 seconds and [tout]
    microseconds, released the whole local list (the address nodes are as
    before the call), and made no [connect] call. *)
Theorem udp_open_configures_timeouts_and_releases_local_list
    tout h f e0 t q raddr l ls rs sock e r1 e1 r2 e2 rest :
  h !! q = Some raddr -> 0 <= sock -> r1 <> -1 -> r2 <> -1 ->
  exists w' p,
    _zn_udp_open (Ptr q) tout
      (OS h f e0 t ((sock, e) :: (r1, e1) :: (r2, e2) :: rest) (GaiOk l ls :: rs))
    = Ret (_z_res_t_OK sock) w'
    /\ heap w' = h /\ sock ∈ fds w' /\ answers w' = rest
    /\ trace w' = t ++ [EvGetaddrinfo None "0" (udp_local_hints raddr) 0;
                        EvSocket (ai_family l) (ai_socktype l) (ai_protocol l) sock;
                        EvSetsockopt sock (SO_RCVTIMEO 0 tout) r1;
                        EvSetsockopt sock (SO_SNDTIMEO 0 tout) r2;
                        EvFreeaddrinfo (Ptr p)].
Proof.
  intros Hq Hsock Hr1 Hr2.
  exists {| heap := h; fds := {[sock]} ∪ f;
            errno := last_errno e0 [(r1, e1); (r2, e2)];
            trace := t ++ [EvGetaddrinfo None "0" (udp_local_hints raddr) 0;
                           EvSocket (ai_family l) (ai_socktype l) (ai_protocol l) sock;
                           EvSetsockopt sock (SO_RCVTIMEO 0 tout) r1;
                           EvSetsockopt sock (SO_SNDTIMEO 0 tout) r2;
                           EvFreeaddrinfo (alloc_chain h (l :: ls)).1];
            answers := rest; resolv := rs |}.
  exists (fresh (dom (alloc_chain h ls).2)).
  split; [now apply udp_open_success_run|]. cbn [heap fds answers trace].
  split; [reflexivity|]. split; [apply opened|]. split; [reflexivity|].
  rewrite alloc_chain_cons. reflexivity.
Qed.


(** X8: an endpoint made by [_zn_create_udp_endpoint], from however many
    addresses, handed to [_zn_udp_open]: the two compose without fault, since
    the UDP side never follows [ai_next]; the result is [Ok] with the socket,
    and of all the nodes allocated on the way only the endpoint's first node
    is left. *)
Theorem udp_resolve_then_open
    s port tout h f e0 t a l la lls rs sock e r1 e1 r2 e2 rest :
  0 <= sock -> r1 <> -1 -> r2 <> -1 ->
  exists p nd w',
    (p ← _zn_create_udp_endpoint s port; _zn_udp_open p tout)
      (OS h f e0 t ((sock, e) :: (r1, e1) :: (r2, e2) :: rest)
          (GaiOk a l :: GaiOk la lls :: rs))
    = Ret (_z_res_t_OK sock) w'
    /\ heap w' = <[p := nd]> h /\ ai_addr nd = ai_addr a
    /\ sock ∈ fds w' /\ answers w' = rest /\ resolv w' = rs.
Proof.
  intros Hsock Hr1 Hr2. do 3 eexists. split.
  - rewrite bind_run, create_udp_endpoint_success.
    eapply udp_open_success_run; try assumption. apply lookup_insert_eq.
  - cbn [heap fds answers resolv].
    split; [reflexivity|]. split; [reflexivity|]. split; [apply opened|].
    split; reflexivity.
Qed.

(** X9: [_zn_udp_open] followed by [_zn_udp_close] on the socket it
    returned leaves nothing behind: the address nodes and the open
    descriptors are what they were before the socket was opened. *)
Theorem udp_open_then_close_restores
    tout h f e0 t q raddr l ls rs sock e r1 e1 r2 e2 rest :
  h !! q = Some raddr -> 0 <= sock -> sock ∉ f -> r1 <> -1 -> r2 <> -1 ->
  exists w' w'',
    _zn_udp_open (Ptr q) tout
      (OS h f e0 t ((sock, e) :: (r1, e1) :: (r2, e2) :: rest) (GaiOk l ls :: rs))
    = Ret (_z_res_t_OK sock) w'
    /\ _zn_udp_close sock w' = Ret 0 w''
    /\ heap w'' = h /\ fds w'' = f /\ trace w'' = trace w' ++ [EvClose sock].
Proof.
  intros Hq Hsock Hnew Hr1 Hr2. do 2 eexists.
  split; [now apply (udp_open_success_run tout h f e0 t q raddr)|].
  split.
  { unfold _zn_udp_close, close. cbn [fds].
    rewrite bool_decide_eq_true_2 by apply opened. reflexivity. }
  cbn [heap fds trace].
  split; [reflexivity|]. split; [now apply closed_again | reflexivity].
Qed.


End UdpOpenMore.

(** ** Sending on a UDP socket *)

(** X11: [_zn_udp_send] on an endpoint made by [_zn_create_udp_endpoint],
    from however many addresses: one [sendto] call is made, with flags 0 and
    the whole buffer, to the first resolved address; its count is returned,
    as an [int]; nothing is retried and no address node or descriptor
    changes. *)
Theorem udp_send_goes_to_first_resolved_address
    s port sock data h f e0 t a l r e rest rs :
  exists p w' w'',
    _zn_create_udp_endpoint s port (OS h f e0 t ((r, e) :: rest) (GaiOk a l :: rs))
    = Ret p w'
    /\ _zn_udp_send sock data p w'
       = (Ret (to_int r) w'', [EvSendto sock data 0 (ai_addr a) (ai_addrlen a) r])
    /\ heap w'' = heap w' /\ fds w'' = f /\ answers w'' = rest.
Proof.
  do 3 eexists. split; [apply create_udp_endpoint_success|].
  unfold _zn_udp_send, deref. cbn [heap]. rewrite lookup_insert_eq.
  unfold sendto, io_call. cbn [answers as_int ai_addr ai_addrlen relink].
  split; [reflexivity|]. cbn [heap fds answers]. split; [reflexivity|].
  split; reflexivity.
Qed.

(** ** More of the exact-length reads *)

Lemma tcp_loop_never_writes_below sock len inc : forall ptr n m k,
  k < ptr ->
  memory_of (_zn_tcp_read_exact_loop sock len ptr n m inc) !! k = m !! k.
Proof.
  induction inc as [|a inc IH]; intros ptr n m k Hk; [reflexivity|].
  cbn [_zn_tcp_read_exact_loop]. unfold _zn_tcp_read, recv.
  destruct a as [bs|r].
  - set (got := take (Z.to_nat (to_size_t n)) bs).
    destruct (to_int (Z.of_nat (length got)) <? 0);
      [cbn [memory_of]; now apply store_bytes_below|].
    destruct (0 <? to_int (n - to_int (Z.of_nat (length got))));
      [|cbn [memory_of]; now apply store_bytes_below].
    rewrite IH; [now apply store_bytes_below|].
    unfold to_size_t.
    pose proof (Z.mod_pos_bound
                  (len - (to_int (n - to_int (Z.of_nat (length got)))) mod 2 ^ 64)
                  (2 ^ 64) ltac:(lia)).
    lia.
  - destruct (to_int r <? 0); [reflexivity|].
    destruct (0 <? to_int (n - to_int r)); [|reflexivity].
    apply IH. unfold to_size_t.
    pose proof (Z.mod_pos_bound (len - (to_int (n - to_int r)) mod 2 ^ 64)
                  (2 ^ 64) ltac:(lia)).
    lia.
Qed.

(** X12: whatever the reads answer, [read_exact] (TCP and UDP) never writes
    below the start of the buffer: every byte at an address before [ptr] is
    what it was, whether the call has returned or is still in a read. *)
Theorem read_exact_never_writes_before_buffer sock ptr len m inc k :
  0 <= len <= INT_MAX -> Forall wf_answer inc -> k < ptr ->
  memory_of (_zn_tcp_read_exact sock ptr len m inc) !! k = m !! k
  /\ memory_of (_zn_udp_read_exact sock ptr len m inc) !! k = m !! k.
Proof.
  intros _ _ Hk.
  assert (Htcp : memory_of (_zn_tcp_read_exact sock ptr len m inc) !! k = m !! k)
    by (now apply tcp_loop_never_writes_below).
  split; [exact Htcp|].
  pose proof (udp_read_exact_is_tcp sock ptr len m inc) as Hsame. congruence.
Qed.

Lemma read_exact_never_writes_before_buffer_witness :
  memory_of (_zn_tcp_read_exact 3 4096 3 {[4095 := "z"%byte]}
               [RecvData ["a"%byte]; RecvData ["b"%byte]; RecvData ["c"%byte]])
    !! 4095 = Some "z"%byte.
Proof.
  exact (proj1 (read_exact_never_writes_before_buffer 3 4096 3 {[4095 := "z"%byte]}
                  [RecvData ["a"%byte]; RecvData ["b"%byte]; RecvData ["c"%byte]]
                  4095 ltac:(unfold INT_MAX; lia) ltac:(repeat constructor)
                  ltac:(lia))).
Defined.

(** X13: a payload that arrives whole, or in two pieces, is read by
    [read_exact] (TCP and UDP) into the buffer in order from its start: the
    call returns the length and the buffer holds exactly the payload. *)
Theorem read_exact_assembles_up_to_two_fragments sock ptr m (f1 f2 : list byte) rest :
  f1 <> [] -> f2 <> [] -> Z.of_nat (length (f1 ++ f2)) <= INT_MAX ->
  let one := Z.of_nat (length f1) in
  let two := Z.of_nat (length (f1 ++ f2)) in
  _zn_tcp_read_exact sock ptr one m (RecvData f1 :: rest)
  = Returned one (store_bytes m ptr f1) rest
  /\ _zn_udp_read_exact sock ptr one m (RecvData f1 :: rest)
     = Returned one (store_bytes m ptr f1) rest
  /\ load_bytes (store_bytes m ptr f1) ptr (length f1) = map Some f1
  /\ _zn_tcp_read_exact sock ptr two m (RecvData f1 :: RecvData f2 :: rest)
     = Returned two (store_bytes m ptr (f1 ++ f2)) rest
  /\ _zn_udp_read_exact sock ptr two m (RecvData f1 :: RecvData f2 :: rest)
     = Returned two (store_bytes m ptr (f1 ++ f2)) rest
  /\ load_bytes (store_bytes m ptr (f1 ++ f2)) ptr (length (f1 ++ f2))
     = map Some (f1 ++ f2).
Proof.
  intros Hf1 Hf2 Hmax one two.
  assert (Hone : Z.of_nat (length f1) <= INT_MAX) by (rewrite length_app in Hmax; lia).
  destruct (read_exact_one_fragment sock ptr m f1 rest Hf1 Hone) as [H1 L1].
  destruct (read_exact_two_fragments sock ptr m f1 f2 rest Hf1 Hf2 Hmax) as [H2 L2].
  split; [exact H1|]. split; [etransitivity; [apply udp_read_exact_is_tcp | exact H1]|].
  split; [exact L1|]. split; [exact H2|].
  split; [etransitivity; [apply udp_read_exact_is_tcp | exact H2] | exact L2].
Qed.

Lemma read_exact_assembles_up_to_two_fragments_witness :
  _zn_tcp_read_exact 3 4096 3 ∅ [RecvData ["a"%byte; "b"%byte]; RecvData ["c"%byte]]
  = Returned 3 (store_bytes ∅ 4096 ["a"%byte; "b"%byte; "c"%byte]) [].
Proof.
  exact (proj1 (proj2 (proj2 (proj2
    (read_exact_assembles_up_to_two_fragments 3 4096 ∅ ["a"%byte; "b"%byte] ["c"%byte] []
       ltac:(discriminate) ltac:(discriminate) ltac:(unfold INT_MAX; simpl; lia)))))).
Defined.

(** X14: a read that fails after a first fragment has arrived: [read_exact]
    (TCP and UDP) returns the negative value of that read at once, the
    fragment stays in the buffer where it was stored, and the answers after
    the failing read are not consumed. *)
Theorem read_exact_failure_leaves_first_fragment sock ptr len m (f1 : list byte) r rest :
  f1 <> [] -> Z.of_nat (length f1) < len <= INT_MAX -> INT_MIN <= r < 0 ->
  _zn_tcp_read_exact sock ptr len m (RecvData f1 :: RecvErr r :: rest)
  = Returned r (store_bytes m ptr f1) rest
  /\ _zn_udp_read_exact sock ptr len m (RecvData f1 :: RecvErr r :: rest)
     = Returned r (store_bytes m ptr f1) rest
  /\ load_bytes (store_bytes m ptr f1) ptr (length f1) = map Some f1.
Proof.
  intros Hf1 Hlen Hr.
  assert (Htcp : _zn_tcp_read_exact sock ptr len m (RecvData f1 :: RecvErr r :: rest)
                 = Returned r (store_bytes m ptr f1) rest).
  { unfold _zn_tcp_read_exact. rewrite to_int_id by (unfold INT_MIN; lia).
    cbn [_zn_tcp_read_exact_loop]. rewrite tcp_read_data by lia.
    rewrite take_ge by lia.
    destruct (Z.ltb_spec (Z.of_nat (length f1)) 0) as [?|_]; [lia|].
    rewrite (to_int_id (len - _)) by (unfold INT_MIN; unfold INT_MAX in *; lia).
    destruct (Z.ltb_spec 0 (len - Z.of_nat (length f1))) as [_|?]; [|lia].
    rewrite tcp_read_err by assumption.
    destruct (Z.ltb_spec r 0) as [_|?]; [reflexivity | lia]. }
  split; [exact Htcp|].
  split; [etransitivity; [apply udp_read_exact_is_tcp | exact Htcp]|].
  apply load_stored_bytes.
Qed.

Lemma read_exact_failure_leaves_first_fragment_witness :
  _zn_tcp_read_exact 3 4096 3 ∅ [RecvData ["a"%byte]; RecvErr (-1); RecvData ["b"%byte]]
  = Returned (-1) (store_bytes ∅ 4096 ["a"%byte]) [RecvData ["b"%byte]].
Proof.
  exact (proj1 (read_exact_failure_leaves_first_fragment 3 4096 3 ∅ ["a"%byte] (-1)
                  [RecvData ["b"%byte]]
                  ltac:(discriminate) ltac:(unfold INT_MAX; simpl; lia)
                  ltac:(unfold INT_MIN; lia))).
Defined.

(** ** The properties at work on the example host *)

Lemma tcp_open_option_failure_closes_errno_value_witness :
  exists w',
    @_zn_tcp_open (example_platform false) (Ptr 1) (single_world [(3, 0); (-1, 22)] [])
    = Ret (_z_res_t_ERR 22) w'
    /\ 3 ∈ fds w' /\ answers w' = []
    /\ trace w' = [] ++ [EvSocket 2 1 6 3; EvSetsockopt 3 (SO_KEEPALIVE 1) (-1);
                         EvClose 22].
Proof.
  exact (proj1 (@tcp_open_option_failure_closes_errno_value (example_platform false)
                  {[1%positive := addr4]} ∅ 0 [] [] 1%positive addr4 3 0 (-1) 22 (-1) 22 []
                  ltac:(apply lookup_singleton_eq) ltac:(lia))
           ltac:(lia) ltac:(lia)).
Defined.

Lemma tcp_open_ignores_nosigpipe_failure_witness :
  exists w',
    @_zn_tcp_open (example_platform true) (Ptr 1)
      (single_world [(3, 0); (0, 0); (0, 0); (-1, 42); (0, 0)] [])
    = Ret (_z_res_t_OK 3) w'
    /\ errno w' = 42.
Proof.
  destruct (@tcp_open_ignores_nosigpipe_failure (example_platform true)
              (single_world [(3, 0); (0, 0); (0, 0); (-1, 42); (0, 0)] [])
              (Ptr 1) addr4 [] 3 0 0 0 0 0 (-1) 42 0 0 []
              ltac:(reflexivity)
              ltac:(exists 1%positive; split; [reflexivity|]; split; reflexivity)
              ltac:(lia) ltac:(lia) ltac:(lia) ltac:(lia) ltac:(lia) ltac:(reflexivity))
    as (w' & Hrun & Herrno & _).
  exists w'. split; [exact Hrun | exact Herrno].
Defined.

Lemma tcp_resolve_single_then_open_witness :
  exists w',
    (p ← _zn_create_tcp_endpoint "localhost" "7447";
     @_zn_tcp_open (example_platform false) p)
      (OS ∅ ∅ 0 [] [(3, 0); (0, 0); (0, 0); (0, 0)] [GaiOk addr4 []])
    = Ret (_z_res_t_OK 3) w'
    /\ answers w' = [].
Proof.
  destruct (@tcp_resolve_single_then_open (example_platform false)
              "localhost" "7447" ∅ ∅ 0 [] [] addr4 3 0 0 0 0 0 [] 0 0 []
              ltac:(lia) ltac:(lia) ltac:(lia) ltac:(reflexivity))
    as (w' & Hrun & _ & Hans & _).
  exists w'. split; [exact Hrun | exact Hans].
Defined.

Lemma open_after_failed_resolution_faults_witness :
  (p ← _zn_create_tcp_endpoint "nohost" "7447"; @_zn_tcp_open (example_platform false) p)
    (OS ∅ ∅ 0 [] [] [GaiErr 8])
  = Fault (OS ∅ ∅ 0 ([] ++ [EvGetaddrinfo (Some "nohost") "7447" tcp_hints 8]) [] [])
  /\ (p ← _zn_create_udp_endpoint "nohost" "7447";
      @_zn_udp_open (example_platform false) p 500)
       (OS ∅ ∅ 0 [] [] [GaiErr (-2)])
     = Fault (OS ∅ ∅ 0 ([] ++ [EvGetaddrinfo (Some "nohost") "7447" udp_hints (-2)]) [] []).
Proof.
  exact (@open_after_failed_resolution_faults (example_platform false)
           "nohost" "7447" 500 ∅ ∅ 0 [] [] [] 8 (-2) ltac:(lia) ltac:(lia)).
Defined.

Lemma udp_open_configures_timeouts_and_releases_local_list_witness :
  exists w',
    @_zn_udp_open (example_platform false) (Ptr 1) 500
      (single_world [(3, 0); (0, 0); (0, 0)] [GaiOk addr4 []])
    = Ret (_z_res_t_OK 3) w'
    /\ heap w' = {[1%positive := addr4]} /\ 3 ∈ fds w'.
Proof.
  destruct (@udp_open_configures_timeouts_and_releases_local_list (example_platform false)
              500 {[1%positive := addr4]} ∅ 0 [] 1%positive addr4 addr4 [] [] 3 0 0 0 0 0 []
              ltac:(apply lookup_singleton_eq) ltac:(lia) ltac:(lia) ltac:(lia))
    as (w' & p & Hrun & Hheap & Hfd & _).
  exists w'. split; [exact Hrun|]. split; [exact Hheap | exact Hfd].
Defined.


Lemma udp_resolve_then_open_witness :
  exists p nd w',
    (p ← _zn_create_udp_endpoint "localhost" "7447";
     @_zn_udp_open (example_platform false) p 500)
      (OS ∅ ∅ 0 [] [(3, 0); (0, 0); (0, 0)] [GaiOk addr6 [addr4]; GaiOk addr4 []])
    = Ret (_z_res_t_OK 3) w'
    /\ heap w' = <[p := nd]> ∅ /\ ai_addr nd = 6001.
Proof.
  destruct (@udp_resolve_then_open (example_platform false)
              "localhost" "7447" 500 ∅ ∅ 0 [] addr6 [addr4] addr4 [] [] 3 0 0 0 0 0 []
              ltac:(lia) ltac:(lia) ltac:(lia))
    as (p & nd & w' & Hrun & Hheap & Haddr & _).
  exists p, nd, w'. split; [exact Hrun|]. split; [exact Hheap | exact Haddr].
Defined.

Lemma udp_open_then_close_restores_witness :
  exists w' w'',
    @_zn_udp_open (example_platform false) (Ptr 1) 500
      (single_world [(3, 0); (0, 0); (0, 0)] [GaiOk addr4 []])
    = Ret (_z_res_t_OK 3) w'
    /\ _zn_udp_close 3 w' = Ret 0 w''
    /\ heap w'' = {[1%positive := addr4]} /\ fds w'' = ∅.
Proof.
  destruct (@udp_open_then_close_restores (example_platform false)
              500 {[1%positive := addr4]} ∅ 0 [] 1%positive addr4 addr4 [] [] 3 0 0 0 0 0 []
              ltac:(apply lookup_singleton_eq) ltac:(lia) (not_elem_of_empty 3) ltac:(lia) ltac:(lia))
    as (w' & w'' & Hrun & Hclose & Hheap & Hfds & _).
  exists w', w''. split; [exact Hrun|]. split; [exact Hclose|].
  split; [exact Hheap | exact Hfds].
Defined.


Section UdpOpenErrors.
Context `{Platform}.

(** X15: when the local resolution fails, with any non-zero code, negative
    or positive, [_zn_udp_open] returns [Err] with the invalid-locator code
    and stops there: no socket is created, no answer of a later call is
    used up, and nothing is allocated. *)
Theorem udp_open_reports_invalid_locator tout h f e0 t ans q raddr rc rs :
  h !! q = Some raddr -> rc <> 0 ->
  exists w',
    _zn_udp_open (Ptr q) tout (OS h f e0 t ans (GaiErr rc :: rs))
    = Ret (_z_res_t_ERR _zn_err_t_INVALID_LOCATOR) w'
    /\ heap w' = h /\ fds w' = f /\ answers w' = ans
    /\ trace w' = t ++ [EvGetaddrinfo None "0" (udp_local_hints raddr) rc].
Proof.
  intros Hq Hrc. eexists. split; [now apply (udp_open_resolution_failure tout h f e0 t ans q raddr)|].
  cbn [heap fds answers trace]. repeat split; reflexivity.
Qed.

End UdpOpenErrors.

Lemma udp_open_reports_invalid_locator_witness :
  exists w',
    @_zn_udp_open (example_platform false) (Ptr 1) 500 (single_world [(3, 0)] [GaiErr 8])
    = Ret (_z_res_t_ERR 1002) w'
    /\ fds w' = ∅ /\ answers w' = [(3, 0)].
Proof.
  destruct (@udp_open_reports_invalid_locator (example_platform false)
              500 {[1%positive := addr4]} ∅ 0 [] [(3, 0)] 1%positive addr4 8 []
              ltac:(apply lookup_singleton_eq) ltac:(lia))
    as (w' & Hrun & _ & Hfds & Hans & _).
  exists w'. split; [exact Hrun|]. split; [exact Hfds | exact Hans].
Defined.
